(** * Fail-fast allocation shims of the grep/sed wrapper

    A shallow embedding of [src/gnu/gnulib_stubs.c] (the [xmalloc] family,
    [xpalloc], [xreallocarray], [gl_dynarray_resize], [rotr_sz]) and of the
    shims of [src/gnu/gnulib_compat.h] ([reallocarray], [memrchr],
    [rawmemchr], [mbslen], [setlocale_null_r]).

    - [size_t] is an unsigned 64-bit integer, [ptrdiff_t] a signed one; both
      are carried as [Z] and every C operation on them writes its reduction
      modulo [2^64] out.
    - Pointers are addresses in [Z]; [NULL] is [0].
    - The C library allocator is not part of the repository.  It is an
      oracle [libc] that answers each call from the history of the process,
      so every statement below holds for all allocators.
    - A function of the C file is a computation [M A]: it takes the state
      of the process and returns, aborts the process, or faults on an
      invalid [size_t *]. *)

From Stdlib Require Import ZArith Lia Ascii String.
From stdpp Require Import gmap strings list.

Local Open Scope Z_scope.

(** ** Machine integers *)

Module Mach.

Definition SIZE_BITS : Z := 64.
Definition SIZE_MOD : Z := 2 ^ SIZE_BITS.
Definition SIZE_MAX : Z := SIZE_MOD - 1.
Definition PTRDIFF_MAX : Z := 2 ^ (SIZE_BITS - 1) - 1.
Definition PTRDIFF_MIN : Z := - 2 ^ (SIZE_BITS - 1).

Definition is_size_t (z : Z) : Prop := 0 <= z <= SIZE_MAX.
Definition is_ptrdiff_t (z : Z) : Prop := PTRDIFF_MIN <= z <= PTRDIFF_MAX.

(** [(size_t) z]: conversion to the unsigned type. *)
Definition to_size_t (z : Z) : Z := z mod SIZE_MOD.

(** [a + b], [a - b] and [a * b] at type [size_t]. *)
Definition size_add (a b : Z) : Z := to_size_t (a + b).
Definition size_sub (a b : Z) : Z := to_size_t (a - b).
Definition size_mul (a b : Z) : Z := to_size_t (a * b).

Definition NULL : Z := 0.

End Mach.
Import Mach.

(** ** The state of the process *)

(** A call into the C library allocator. *)
Inductive AllocCall : Type :=
| Malloc (n : Z)
| Calloc (n s : Z)
| Realloc (p n : Z)
| Strdup (s : Z).

(** What the process did, oldest event first: an allocator call with the
    pointer it answered, a [memcpy], a line written to [stderr]. *)
Inductive Event : Type :=
| EvAlloc (c : AllocCall) (r : Z)
| EvMemcpy (dst src n : Z)
| EvStderr (msg : string).

(** [objects] holds the [size_t] objects of the callers (the capacities
    that [xpalloc] updates through its [size_t *pn]). *)
Record World : Type := mkWorld {
  trace : list Event;
  objects : gmap Z Z;
  errno : Z
}.

Definition log (e : Event) (w : World) : World :=
  mkWorld (trace w ++ [e]) (objects w) (errno w).

Definition is_alloc (e : Event) : bool :=
  match e with
  | EvAlloc _ _ => true
  | _ => false
  end.

(** The allocator calls of a trace, in order. *)
Definition allocations (t : list Event) : list Event := List.filter is_alloc t.

Inductive Outcome (A : Type) : Type :=
| Returned (a : A) (w : World)
| Aborted (w : World)
| Fault.
Arguments Returned {A} a w.
Arguments Aborted {A} w.
Arguments Fault {A}.

(** The state in which a computation ended, whether it returned or the
    process was aborted. *)
Definition final {A} (o : Outcome A) : option World :=
  match o with
  | Returned _ w => Some w
  | Aborted w => Some w
  | Fault => None
  end.

Definition M (A : Type) : Type := World → Outcome A.

#[export] Instance M_ret : MRet M := λ A a w, Returned a w.

#[export] Instance M_bind : MBind M := λ A B f m w,
  match m w with
  | Returned a w' => f a w'
  | Aborted w' => Aborted w'
  | Fault => Fault
  end.

(** [abort()]. *)
Definition abort : M unit := λ w, Aborted w.

(** [fprintf(stderr, msg)]. *)
Definition fprintf_stderr (msg : string) : M unit :=
  λ w, Returned tt (log (EvStderr msg) w).

(** [memcpy(dst, src, n)]: the core never looks at the bytes, so only the
    call is recorded. *)
Definition memcpy (dst src n : Z) : M unit :=
  λ w, Returned tt (log (EvMemcpy dst src n) w).

(** [*p] and [*p = v] for a [size_t *p]. *)
Definition load (p : Z) : M Z :=
  λ w, match objects w !! p with
       | Some v => Returned v w
       | None => Fault
       end.

Definition store (p v : Z) : M unit :=
  λ w, match objects w !! p with
       | Some _ => Returned tt (mkWorld (trace w) (<[p := v]> (objects w)) (errno w))
       | None => Fault
       end.

Definition set_errno (e : Z) : M unit :=
  λ w, Returned tt (mkWorld (trace w) (objects w) e).

Definition when (b : bool) (m : M unit) : M unit :=
  if b then m else mret tt.

Definition newline : string := String (Ascii.ascii_of_nat 10) EmptyString.

(** The line that [xalloc_die] prints. *)
Definition diagnostic : string := "grep: memory exhausted" +:+ newline.

(** ** The C functions *)

Section Shims.

(** The allocator of the C library: from the history of the process and
    the call, the pointer it answers ([NULL] when it has no block). *)
Variable libc : list Event → AllocCall → Z.

(** [ENOMEM] of [<errno.h>]. *)
Variable ENOMEM : Z.

Definition call (c : AllocCall) : M Z :=
  λ w, let r := libc (trace w) c in Returned r (log (EvAlloc c r) w).

Definition malloc (n : Z) : M Z := call (Malloc n).
Definition calloc (n s : Z) : M Z := call (Calloc n s).
Definition realloc (p n : Z) : M Z := call (Realloc p n).
Definition strdup (s : Z) : M Z := call (Strdup s).

(** gnulib_compat.h, [reallocarray]. *)
Definition reallocarray (ptr nmemb size : Z) : M Z :=
  if negb (nmemb =? 0) && (size >? SIZE_MAX / nmemb) then
    set_errno ENOMEM;;
    mret NULL
  else
    realloc ptr (size_mul nmemb size).

(** gnulib_stubs.c, [gl_dynarray_resize]. *)
Definition gl_dynarray_resize (list size scratch element : Z) : M bool :=
  mret false.

Definition xalloc_die : M unit :=
  fprintf_stderr diagnostic;;
  abort.

Definition xmalloc (n : Z) : M Z :=
  p ← malloc n;
  when ((p =? NULL) && negb (n =? 0)) xalloc_die;;
  mret p.

Definition xcalloc (n s : Z) : M Z :=
  p ← calloc n s;
  when ((p =? NULL) && negb (n =? 0) && negb (s =? 0)) xalloc_die;;
  mret p.

Definition xrealloc (p n : Z) : M Z :=
  r ← realloc p n;
  when ((r =? NULL) && negb (n =? 0)) xalloc_die;;
  mret r.

Definition xnmalloc (n s : Z) : M Z :=
  xmalloc (size_mul n s).

Definition xzalloc (n : Z) : M Z :=
  xcalloc n 1.

Definition xstrdup (s : Z) : M Z :=
  p ← strdup s;
  when (p =? NULL) xalloc_die;;
  mret p.

Definition xmemdup (p s : Z) : M Z :=
  r ← xmalloc s;
  memcpy r p s;;
  mret r.

Definition xpalloc (pa pn n_incr_min n_max s : Z) : M Z :=
  n ← load pn;
  let n_incr := n in
  let n_incr := if n_incr <? n_incr_min then n_incr_min else n_incr in
  let n_incr :=
    if (n_max >=? 0) && (size_add n n_incr >? to_size_t n_max)
    then size_sub (to_size_t n_max) n
    else n_incr in
  let new_n := size_add n n_incr in
  store pn new_n;;
  xrealloc pa (size_mul new_n s).

Definition xreallocarray (p n s : Z) : M Z :=
  when (negb (s =? 0) && (n >? to_size_t (-1) / s)) xalloc_die;;
  xrealloc p (size_mul n s).

Definition x2realloc (p pn : Z) : M Z :=
  xpalloc p pn 1 (-1) 1.

Definition x2nrealloc (p pn s : Z) : M Z :=
  xpalloc p pn 1 (-1) s.

End Shims.

(** ** Vocabulary of the statements *)

(** An allocator that has no block left, and one that always has one. *)
Definition exhausted : list Event → AllocCall → Z := λ _ _, NULL.
Definition plentiful : list Event → AllocCall → Z := λ _ _, 4096.

(** A process that has done nothing yet and holds one capacity [n] at
    address [100]. *)
Definition start (n : Z) : World := mkWorld [] {[ 100 := n ]} 0.

(** The state after the allocator answered call [c]. *)
Definition answered (libc : list Event → AllocCall → Z) (c : AllocCall) (w : World) : World :=
  log (EvAlloc c (libc (trace w) c)) w.

(** The state after the guard, having no block, printed its line. *)
Definition died (libc : list Event → AllocCall → Z) (c : AllocCall) (w : World) : World :=
  log (EvStderr diagnostic) (answered libc c w).

(** The count that [xpalloc] stores through [pn], as the C expressions
    compute it from the count [n] read there. *)
Definition next_count (n n_incr_min n_max : Z) : Z :=
  let n_incr := if n <? n_incr_min then n_incr_min else n in
  let n_incr :=
    if (n_max >=? 0) && (size_add n n_incr >? to_size_t n_max)
    then size_sub (to_size_t n_max) n
    else n_incr in
  size_add n n_incr.

(** The state after [*pn = v]. *)
Definition stored (pn v : Z) (w : World) : World :=
  mkWorld (trace w) (<[pn := v]> (objects w)) (errno w).

(** The bound of a growth request: a negative [n_max] means none. *)
Definition maximum_of (n_max : Z) : option Z :=
  if n_max >=? 0 then Some n_max else None.

(** The capacity that the specification prescribes:
    [min(current + max(current, minimum_increment), maximum)]. *)
Definition grow_spec (current minimum_increment : Z) (maximum : option Z) : Z :=
  let grown := current + Z.max current minimum_increment in
  match maximum with
  | Some m => Z.min grown m
  | None => grown
  end.

(** The two guards, as the C conditions are written. *)
Definition reallocarray_overflowed (nmemb size : Z) : bool :=
  negb (nmemb =? 0) && (size >? SIZE_MAX / nmemb).

Definition xreallocarray_overflowed (n s : Z) : bool :=
  negb (s =? 0) && (n >? to_size_t (-1) / s).

(** The capacity after a doubling step, in the words of the claim: from
    0 to 1, otherwise twice the capacity. *)
Definition doubled (n : Z) : Z := if n =? 0 then 1 else 2 * n.

Ltac in_range :=
  unfold is_size_t, is_ptrdiff_t, PTRDIFF_MIN, PTRDIFF_MAX, SIZE_MAX, SIZE_MOD, SIZE_BITS in *;
  cbn in *; lia.

(** ** The other functions of the two files *)

(** [(unsigned char) c]. *)
Definition to_uchar (c : Z) : Z := c mod 256.

(** gnulib_stubs.c, [rotr_sz].  [n % bits] is the remainder of the
    division that truncates toward zero, so it is negative for a negative
    [n]; a shift by a negative count has no defined result. *)
Definition rotr_sz (x n : Z) : option Z :=
  let bits := 8 * 8 in
  let n := Z.rem n bits in
  if n =? 0 then Some x
  else if n <? 0 then None
  else Some (Z.lor (Z.shiftr x n) (to_size_t (Z.shiftl x (bits - n)))).

(** Memory as the byte stored at each address. *)

(** gnulib_compat.h, [memrchr]: [n] steps down from [s + n]. *)
Fixpoint memrchr_loop (mem : Z → Z) (p c : Z) (n : nat) : Z :=
  match n with
  | O => NULL
  | S n' =>
      let p := p - 1 in
      if mem p =? to_uchar c then p else memrchr_loop mem p c n'
  end.

Definition memrchr (mem : Z → Z) (s c n : Z) : Z :=
  memrchr_loop mem (s + n) c (Z.to_nat n).

(** gnulib_compat.h, [rawmemchr]: the loop has no bound of its own, so it
    runs on [fuel]; [None] is a scan that has not ended yet. *)
Fixpoint rawmemchr (fuel : nat) (mem : Z → Z) (p c : Z) : option Z :=
  match fuel with
  | O => None
  | S fuel' =>
      if negb (mem p =? to_uchar c) then rawmemchr fuel' mem (p + 1) c else Some p
  end.

Section Multibyte.

(** [mbrlen] of the C library with its conversion state, and
    [MB_LEN_MAX] of [<limits.h>]; [zero_state] is the state after
    [memset(&state, 0, sizeof(state))]. *)
Variable mbstate_t : Type.
Variable zero_state : mbstate_t.
Variable MB_LEN_MAX : Z.
Variable mbrlen : Z → Z → mbstate_t → Z * mbstate_t.

Variable mem : Z → Z.

(** gnulib_compat.h, [mbslen]: the loop, on [fuel]. *)
Fixpoint mbslen_loop (fuel : nat) (s len : Z) (state : mbstate_t) : option Z :=
  match fuel with
  | O => None
  | S fuel' =>
      if mem s =? 0 then Some len
      else
        let '(bytes, state) := mbrlen s MB_LEN_MAX state in
        if (bytes =? to_size_t (-1)) || (bytes =? to_size_t (-2)) then
          mbslen_loop fuel' (s + 1) (size_add len 1) state
        else if bytes =? 0 then
          Some len
        else
          mbslen_loop fuel' (s + bytes) (size_add len 1) state
  end.

Definition mbslen (fuel : nat) (s : Z) : option Z :=
  mbslen_loop fuel s 0 zero_state.

End Multibyte.

(** A C array as the list of its bytes.  [strlen] is the index of the
    first zero byte, [poke] and [copy_in] are [buf[i] = b] and
    [memcpy(buf, src, n)]; each is [None] when it would leave its array. *)
Fixpoint strlen (a : list Z) : option Z :=
  match a with
  | [] => None
  | b :: a' => if b =? 0 then Some 0 else (λ l, l + 1) <$> strlen a'
  end.

Definition poke (buf : list Z) (i b : Z) : option (list Z) :=
  if (0 <=? i) && (i <? Z.of_nat (length buf))
  then Some (<[Z.to_nat i := b]> buf)
  else None.

Definition copy_in (buf src : list Z) (n : Z) : option (list Z) :=
  if (0 <=? n) && (n <=? Z.of_nat (length buf)) && (n <=? Z.of_nat (length src))
  then Some (take (Z.to_nat n) src ++ drop (Z.to_nat n) buf)
  else None.

Section Locale.

(** [setlocale(category, NULL)] of the C library: the array that the
    returned pointer points to, [None] for [NULL]; [EINVAL] and [ERANGE]
    of [<errno.h>]. *)
Variable setlocale : Z → option (list Z).
Variable EINVAL ERANGE : Z.

(** gnulib_compat.h, [setlocale_null_r]: the return value and the
    contents of [buf] afterwards. *)
Definition setlocale_null_r (category : Z) (buf : list Z) (bufsize : Z)
  : option (Z * list Z) :=
  match setlocale category with
  | None =>
      buf ← (if bufsize >? 0 then poke buf 0 0 else Some buf);
      Some (EINVAL, buf)
  | Some locale =>
      len ← strlen locale;
      if len >=? bufsize then
        buf ← (if bufsize >? 0
               then buf ← copy_in buf locale (size_sub bufsize 1);
                    poke buf (size_sub bufsize 1) 0
               else Some buf);
        Some (ERANGE, buf)
      else
        buf ← copy_in buf locale (size_add len 1);
        Some (0, buf)
  end.

End Locale.

(** A caller that grows its array [k] times in a row:
    [p = x2nrealloc(p, &n, s)]. *)
Fixpoint x2nrealloc_times (libc : list Event → AllocCall → Z) (k : nat) (p pn s : Z) : M Z :=
  match k with
  | O => mret p
  | S k' => p' ← x2nrealloc libc p pn s; x2nrealloc_times libc k' p' pn s
  end.

(** The buffer after [memcpy(buf, src, n)]. *)
Definition overwritten (buf src : list Z) (n : Z) : list Z :=
  take (Z.to_nat n) src ++ drop (Z.to_nat n) buf.

(** What [setlocale_null_r] leaves in a buffer that has [bufsize] bytes. *)
Definition buffer_after (locale : option (list Z)) (buf : list Z) (bufsize : Z) : list Z :=
  match locale with
  | None => if bufsize >? 0 then <[0%nat := 0]> buf else buf
  | Some locale =>
      match strlen locale with
      | None => buf
      | Some len =>
          if len >=? bufsize then
            if bufsize >? 0
            then <[Z.to_nat (bufsize - 1) := 0]> (overwritten buf locale (bufsize - 1))
            else buf
          else overwritten buf locale (len + 1)
      end
  end.

Definition code_after (EINVAL ERANGE : Z) (locale : option (list Z)) (bufsize : Z) : Z :=
  match locale with
  | None => EINVAL
  | Some locale =>
      match strlen locale with
      | None => 0
      | Some len => if len >=? bufsize then ERANGE else 0
      end
  end.

(** ** Running the guards *)

Lemma xmalloc_run libc n w :
  xmalloc libc n w =
    if (libc (trace w) (Malloc n) =? NULL) && negb (n =? 0)
    then Aborted (died libc (Malloc n) w)
    else Returned (libc (trace w) (Malloc n)) (answered libc (Malloc n) w).
Proof.
  unfold xmalloc, malloc, call, mbind, M_bind, when; cbn.
  by destruct (_ && _).
Qed.

Lemma xrealloc_run libc p n w :
  xrealloc libc p n w =
    if (libc (trace w) (Realloc p n) =? NULL) && negb (n =? 0)
    then Aborted (died libc (Realloc p n) w)
    else Returned (libc (trace w) (Realloc p n)) (answered libc (Realloc p n) w).
Proof.
  unfold xrealloc, realloc, call, mbind, M_bind, when; cbn.
  by destruct (_ && _).
Qed.

Lemma xcalloc_run libc n s w :
  xcalloc libc n s w =
    if (libc (trace w) (Calloc n s) =? NULL) && negb (n =? 0) && negb (s =? 0)
    then Aborted (died libc (Calloc n s) w)
    else Returned (libc (trace w) (Calloc n s)) (answered libc (Calloc n s) w).
Proof.
  unfold xcalloc, calloc, call, mbind, M_bind, when; cbn.
  by destruct (_ && _ && _).
Qed.

Lemma xstrdup_run libc s w :
  xstrdup libc s w =
    if libc (trace w) (Strdup s) =? NULL
    then Aborted (died libc (Strdup s) w)
    else Returned (libc (trace w) (Strdup s)) (answered libc (Strdup s) w).
Proof.
  unfold xstrdup, strdup, call, mbind, M_bind, when; cbn.
  by destruct (_ =? _).
Qed.

(** Whatever the allocator answers, [xrealloc] ends (returning or
    aborting) in a state with the same objects and one more allocator
    call. *)
Lemma xrealloc_final libc p n w :
  ∃ w', final (xrealloc libc p n w) = Some w'
        ∧ objects w' = objects w
        ∧ allocations (trace w') =
            allocations (trace w) ++ [EvAlloc (Realloc p n) (libc (trace w) (Realloc p n))].
Proof.
  rewrite xrealloc_run. unfold allocations.
  destruct (_ && _); eexists; (split; [reflexivity |]); split; try reflexivity; cbn.
  all: rewrite ?List.filter_app; cbn; by rewrite ?app_nil_r.
Qed.

(** ** The arithmetic of [xpalloc] *)

Lemma xpalloc_run libc pa pn n_incr_min n_max s n w :
  objects w !! pn = Some n →
  xpalloc libc pa pn n_incr_min n_max s w =
    xrealloc libc pa (size_mul (next_count n n_incr_min n_max) s)
      (stored pn (next_count n n_incr_min n_max) w).
Proof.
  intros Hn.
  unfold xpalloc, load, store, mbind, M_bind at 1 2. rewrite Hn. cbn.
  rewrite Hn. reflexivity.
Qed.

Lemma to_size_t_small z : is_size_t z → to_size_t z = z.
Proof.
  unfold is_size_t, to_size_t, SIZE_MAX. intros H.
  apply Z.mod_small. lia.
Qed.

Lemma to_size_t_range z : is_size_t (to_size_t z).
Proof.
  unfold is_size_t, to_size_t, SIZE_MAX.
  pose proof (Z.mod_pos_bound z SIZE_MOD ltac:(reflexivity)). lia.
Qed.

(** Clamping: [n + (n_max - n)] is [n_max] at type [size_t], whichever of
    the two is larger. *)
Lemma size_add_sub n k : is_size_t k → size_add n (size_sub k n) = k.
Proof.
  intros Hk. unfold size_add, size_sub, to_size_t.
  rewrite Zplus_mod_idemp_r.
  replace (n + (k - n)) with k by lia.
  by apply to_size_t_small.
Qed.

Lemma max_as_branch n m : (if n <? m then m else n) = Z.max n m.
Proof. destruct (Z.ltb_spec n m); lia. Qed.

(** Without wrap-around of the sum, [next_count] is the clamped sum. *)
Lemma next_count_fits n n_incr_min n_max :
  is_size_t n → is_size_t n_incr_min → is_ptrdiff_t n_max →
  n + Z.max n n_incr_min <= SIZE_MAX →
  next_count n n_incr_min n_max =
    if (n_max >=? 0) && (n + Z.max n n_incr_min >? n_max)
    then n_max
    else n + Z.max n n_incr_min.
Proof.
  intros Hn Hm Hk Hfit. unfold next_count.
  rewrite max_as_branch.
  assert (Hsum : size_add n (Z.max n n_incr_min) = n + Z.max n n_incr_min).
  { apply to_size_t_small. unfold is_size_t in *. lia. }
  destruct (Z.geb_spec n_max 0) as [Hpos | Hneg]; cbn [andb]; [| exact Hsum].
  assert (Hk' : is_size_t n_max).
  { unfold is_size_t, is_ptrdiff_t, PTRDIFF_MAX, SIZE_MAX, SIZE_MOD, SIZE_BITS in *.
    cbn in *. lia. }
  rewrite (to_size_t_small n_max Hk'), Hsum.
  destruct (_ >? _); [by apply size_add_sub | exact Hsum].
Qed.

(** With a bound, [next_count] never exceeds it, wrap-around or not. *)
Lemma next_count_bounded n n_incr_min n_max :
  is_ptrdiff_t n_max → 0 <= n_max →
  next_count n n_incr_min n_max <= n_max.
Proof.
  intros Hk Hpos. unfold next_count. rewrite max_as_branch.
  assert (Hk' : is_size_t n_max).
  { unfold is_size_t, is_ptrdiff_t, PTRDIFF_MAX, SIZE_MAX, SIZE_MOD, SIZE_BITS in *.
    cbn in *. lia. }
  rewrite (to_size_t_small n_max Hk').
  destruct (Z.geb_spec n_max 0); [| lia]. cbn [andb].
  destruct (Z.gtb_spec (size_add n (Z.max n n_incr_min)) n_max).
  - rewrite size_add_sub by done. lia.
  - lia.
Qed.

Lemma stored_same pn n w : objects w !! pn = Some n → stored pn n w = w.
Proof.
  intros Hn. destruct w as [t o e]. unfold stored. cbn in *.
  by rewrite insert_id.
Qed.

Lemma ptrdiff_nonneg_is_size_t k : is_ptrdiff_t k → 0 <= k → is_size_t k.
Proof. intros; in_range. Qed.

(** ** Growth at the bound *)

(** C1: the code does not do what the claim says.  With the stored
    count 10 equal to the bound 10 and a minimum increment of 1,
    [xpalloc] clamps the increment to 0, stores the count 10 again, calls
    [realloc] for 80 bytes and returns the block as after any growth: it
    has not grown "by at least n_incr_min", as the comment in its body
    promises, and gives the caller no sign of it. *)
Lemma bound_reached_still_reallocates :
  ∃ w', xpalloc plentiful 7 100 1 10 8 (start 10) = Returned 4096 w'
        ∧ allocations (trace w') = [EvAlloc (Realloc 7 80) 4096]
        ∧ objects w' !! 100 = Some 10.
Proof. eexists. split; [vm_compute; reflexivity |]. split; reflexivity. Qed.

(** ** Unchecked sizes *)

(** C2: [xpalloc] computes [n + n_incr] and [new_n * s] with plain
    [size_t] arithmetic.  From a stored count of [2^60 + 1] elements of 8
    bytes it stores the count [2^61 + 2] and asks [realloc] for 16 bytes;
    from a stored count of [2^63] the sum wraps and it stores 0.  Neither
    call is fatal. *)
Theorem xpalloc_wraps_silently :
  xpalloc plentiful 7 100 1 (-1) 8 (start (2 ^ 60 + 1))
  = Returned 4096
      (mkWorld [EvAlloc (Realloc 7 16) 4096] {[ 100 := 2 ^ 61 + 2 ]} 0)
  ∧ xpalloc plentiful 7 100 1 (-1) 1 (start (2 ^ 63))
    = Returned 4096 (mkWorld [EvAlloc (Realloc 7 0) 4096] {[ 100 := 0 ]} 0).
Proof. split; vm_compute; reflexivity. Qed.

(** C3: [xnmalloc] multiplies without a check.  A request for [2^61 + 1]
    elements of 8 bytes reaches [malloc] as a request for 8 bytes and
    returns its block, where [xreallocarray], given the same count and
    size, prints the diagnostic and aborts before any allocator call. *)
Theorem xnmalloc_wraps_silently :
  xnmalloc plentiful (2 ^ 61 + 1) 8 (start 0)
  = Returned 4096 (mkWorld [EvAlloc (Malloc 8) 4096] {[ 100 := 0 ]} 0)
  ∧ xreallocarray plentiful 7 (2 ^ 61 + 1) 8 (start 0)
    = Aborted (mkWorld [EvStderr diagnostic] {[ 100 := 0 ]} 0).
Proof. split; vm_compute; reflexivity. Qed.

(** ** The new capacity *)

(** However the allocator answers, [xpalloc] on a valid [pn] ends with
    [next_count] stored there and one [realloc] call made. *)
Lemma xpalloc_final libc pa pn n_incr_min n_max s n w :
  objects w !! pn = Some n →
  ∃ w', final (xpalloc libc pa pn n_incr_min n_max s w) = Some w'
        ∧ objects w' !! pn = Some (next_count n n_incr_min n_max)
        ∧ allocations (trace w') =
            allocations (trace w)
            ++ [EvAlloc (Realloc pa (size_mul (next_count n n_incr_min n_max) s))
                  (libc (trace w)
                     (Realloc pa (size_mul (next_count n n_incr_min n_max) s)))].
Proof.
  intros Hn. rewrite (xpalloc_run _ _ _ _ _ _ _ _ Hn).
  destruct (xrealloc_final libc pa (size_mul (next_count n n_incr_min n_max) s)
              (stored pn (next_count n n_incr_min n_max) w)) as (w' & Hf & Ho & Ha).
  exists w'. split; [exact Hf |]. split; [| exact Ha].
  rewrite Ho. cbn. apply lookup_insert_eq.
Qed.

Lemma next_count_grow_spec n n_incr_min n_max :
  is_size_t n → is_size_t n_incr_min → is_ptrdiff_t n_max →
  n + Z.max n n_incr_min <= SIZE_MAX →
  next_count n n_incr_min n_max = grow_spec n n_incr_min (maximum_of n_max).
Proof.
  intros Hn Hm Hk Hfit. rewrite next_count_fits by done.
  unfold grow_spec, maximum_of.
  destruct (Z.geb_spec n_max 0); cbn [andb]; [| done].
  destruct (Z.gtb_spec (n + Z.max n n_incr_min) n_max); lia.
Qed.

(** C4: when [current + max(current, minimum_increment)] fits [size_t],
    [xpalloc] stores [min(current + max(current, minimum_increment),
    maximum)] as the new capacity, and returns the block whenever the
    allocator has one; from 4 with minimum 1 and no bound the capacity
    becomes 8, from 8 with minimum 1 and bound 10 it becomes 10. *)
Theorem xpalloc_new_capacity :
  (∀ libc pa pn n_incr_min n_max s n w,
     objects w !! pn = Some n →
     is_size_t n → is_size_t n_incr_min → is_ptrdiff_t n_max →
     n + Z.max n n_incr_min <= SIZE_MAX →
     ∃ w', final (xpalloc libc pa pn n_incr_min n_max s w) = Some w'
           ∧ objects w' !! pn = Some (grow_spec n n_incr_min (maximum_of n_max))
           ∧ ∀ r, r ≠ NULL →
               libc (trace w)
                 (Realloc pa (size_mul (grow_spec n n_incr_min (maximum_of n_max)) s)) = r →
               xpalloc libc pa pn n_incr_min n_max s w = Returned r w')
  ∧ (∀ libc pa s,
       ∃ w', final (xpalloc libc pa 100 1 (-1) s (start 4)) = Some w'
             ∧ objects w' !! 100 = Some 8)
  ∧ (∀ libc pa s,
       ∃ w', final (xpalloc libc pa 100 1 10 s (start 8)) = Some w'
             ∧ objects w' !! 100 = Some 10).
Proof.
  assert (General : ∀ libc pa pn n_incr_min n_max s n w,
     objects w !! pn = Some n →
     is_size_t n → is_size_t n_incr_min → is_ptrdiff_t n_max →
     n + Z.max n n_incr_min <= SIZE_MAX →
     ∃ w', final (xpalloc libc pa pn n_incr_min n_max s w) = Some w'
           ∧ objects w' !! pn = Some (grow_spec n n_incr_min (maximum_of n_max))
           ∧ ∀ r, r ≠ NULL →
               libc (trace w)
                 (Realloc pa (size_mul (grow_spec n n_incr_min (maximum_of n_max)) s)) = r →
               xpalloc libc pa pn n_incr_min n_max s w = Returned r w').
  { intros libc pa pn n_incr_min n_max s n w Hn Hn' Hm Hk Hfit.
    destruct (xpalloc_final libc pa pn n_incr_min n_max s n w Hn) as (w' & Hf & Ho & _).
    rewrite (next_count_grow_spec n n_incr_min n_max) in Ho by done.
    exists w'. split; [exact Hf |]. split; [exact Ho |].
    intros r Hr Hlibc. revert Hf.
    rewrite (xpalloc_run _ _ _ _ _ _ _ _ Hn), xrealloc_run.
    rewrite (next_count_grow_spec n n_incr_min n_max) by done.
    cbn [stored trace]. rewrite Hlibc.
    destruct (Z.eqb_spec r NULL); [done |]. cbn. by intros [= ->]. }
  split; [exact General |].
  split; intros libc pa s.
  - destruct (General libc pa 100 1 (-1) s 4 (start 4)) as (w' & Hf & Ho & _);
      [reflexivity | in_range .. |].
    by exists w'.
  - destruct (General libc pa 100 1 10 s 8 (start 8)) as (w' & Hf & Ho & _);
      [reflexivity | in_range .. |].
    by exists w'.
Qed.

Lemma xpalloc_new_capacity_witness :
  ∃ w', final (xpalloc plentiful 7 100 1 10 8 (start 8)) = Some w'
        ∧ objects w' !! 100 = Some 10
        ∧ xpalloc plentiful 7 100 1 10 8 (start 8) = Returned 4096 w'.
Proof.
  destruct (proj1 xpalloc_new_capacity plentiful 7 100 1 10 8 8 (start 8))
    as (w' & Hf & Ho & Hr).
  - reflexivity.
  - in_range.
  - in_range.
  - in_range.
  - in_range.
  - exists w'. split; [exact Hf |]. split; [exact Ho |].
    apply Hr; [discriminate | reflexivity].
Defined.

(** ** Monotonicity *)

(** C5: the code does not do what the claim says.  The sum
    [n + n_incr] is not checked: a stored count of 1 within the bound 10,
    asked to grow by at least [SIZE_MAX], wraps to 0, which passes the
    test against the bound, so [xpalloc] stores the count 0, below the
    previous one, and calls [realloc] for 0 bytes; without a bound a
    stored count of [2^63] becomes 0 in the same way. *)
Lemma xpalloc_wrap_loses_capacity :
  xpalloc plentiful 7 100 SIZE_MAX 10 8 (start 1)
  = Returned 4096 (mkWorld [EvAlloc (Realloc 7 0) 4096] {[ 100 := 0 ]} 0)
  ∧ xpalloc plentiful 7 100 1 (-1) 8 (start (2 ^ 63))
    = Returned 4096 (mkWorld [EvAlloc (Realloc 7 0) 4096] {[ 100 := 0 ]} 0).
Proof. split; vm_compute; reflexivity. Qed.

(** X22: [xpalloc] on a valid [pn] always ends with a stored count
    that is at most [n_max] when [n_max >= 0]; the stored count is at
    least the previous one whenever the previous count does not exceed
    the bound (or there is none) and [n + max(n, n_incr_min)] fits
    [size_t]. *)
Theorem xpalloc_monotone_within_bound libc pa pn n_incr_min n_max s n w :
  objects w !! pn = Some n →
  is_size_t n → is_size_t n_incr_min → is_ptrdiff_t n_max →
  ∃ w' new_n,
    final (xpalloc libc pa pn n_incr_min n_max s w) = Some w'
    ∧ objects w' !! pn = Some new_n
    ∧ (0 <= n_max → new_n <= n_max)
    ∧ (n_max < 0 ∨ n <= n_max → n + Z.max n n_incr_min <= SIZE_MAX → n <= new_n).
Proof.
  intros Hn Hn' Hm Hk.
  destruct (xpalloc_final libc pa pn n_incr_min n_max s n w Hn) as (w' & Hf & Ho & _).
  exists w', (next_count n n_incr_min n_max).
  split; [exact Hf |]. split; [exact Ho |]. split.
  - intros Hpos. by apply next_count_bounded.
  - intros Hbound Hfit. rewrite next_count_fits by done.
    unfold is_size_t in Hn'.
    destruct (Z.geb_spec n_max 0); cbn [andb]; [| lia].
    destruct (Z.gtb_spec (n + Z.max n n_incr_min) n_max); lia.
Qed.

Lemma xpalloc_monotone_within_bound_witness :
  ∃ w' new_n,
    final (xpalloc exhausted 7 100 1 10 8 (start 8)) = Some w'
    ∧ objects w' !! 100 = Some new_n
    ∧ (0 <= 10 → new_n <= 10)
    ∧ (10 < 0 ∨ 8 <= 10 → 8 + Z.max 8 1 <= SIZE_MAX → 8 <= new_n).
Proof.
  apply (xpalloc_monotone_within_bound exhausted 7 100 1 10 8 8 (start 8)).
  - reflexivity.
  - in_range.
  - in_range.
  - in_range.
Defined.

(** ** The overflow check of [reallocarray] and [xreallocarray] *)

Lemma reallocarray_run libc ENOMEM ptr nmemb size w :
  reallocarray libc ENOMEM ptr nmemb size w =
    if reallocarray_overflowed nmemb size
    then Returned NULL (mkWorld (trace w) (objects w) ENOMEM)
    else realloc libc ptr (size_mul nmemb size) w.
Proof.
  unfold reallocarray, reallocarray_overflowed.
  by destruct (_ && _).
Qed.

Lemma xreallocarray_run libc p n s w :
  xreallocarray libc p n s w =
    if xreallocarray_overflowed n s
    then Aborted (log (EvStderr diagnostic) w)
    else xrealloc libc p (size_mul n s) w.
Proof.
  unfold xreallocarray, xreallocarray_overflowed, when.
  destruct (_ && _); [reflexivity |].
  unfold mbind, M_bind at 1. cbn. reflexivity.
Qed.

(** A quotient test decides whether a product fits. *)
Lemma quotient_test a b :
  0 <= a → 0 < b → (a >? SIZE_MAX / b) = (a * b >? SIZE_MAX).
Proof.
  intros Ha Hb.
  destruct (Z.gtb_spec a (SIZE_MAX / b)) as [Hgt | Hle];
    destruct (Z.gtb_spec (a * b) SIZE_MAX) as [Hgt' | Hle']; try reflexivity; exfalso.
  - assert (a <= SIZE_MAX / b) by (apply Z.div_le_lower_bound; lia). lia.
  - assert (b * (SIZE_MAX / b) <= SIZE_MAX) by (apply Z.mul_div_le; lia). nia.
Qed.

Lemma xreallocarray_overflowed_spec n s :
  is_size_t n → is_size_t s →
  xreallocarray_overflowed n s = (n * s >? SIZE_MAX).
Proof.
  intros Hn Hs. unfold xreallocarray_overflowed.
  change (to_size_t (-1)) with SIZE_MAX.
  destruct (Z.eqb_spec s 0) as [-> | Hs0]; cbn [negb andb].
  - rewrite Z.mul_0_r. reflexivity.
  - apply quotient_test; in_range.
Qed.

Lemma reallocarray_overflowed_spec nmemb size :
  is_size_t nmemb → is_size_t size →
  reallocarray_overflowed nmemb size = (nmemb * size >? SIZE_MAX).
Proof.
  intros Hn Hs. unfold reallocarray_overflowed.
  destruct (Z.eqb_spec nmemb 0) as [-> | Hn0]; cbn [negb andb].
  - reflexivity.
  - rewrite (Z.mul_comm nmemb size). apply quotient_test; in_range.
Qed.

Lemma size_mul_fits n s :
  is_size_t n → is_size_t s → n * s <= SIZE_MAX → size_mul n s = n * s.
Proof.
  intros Hn Hs Hfit. apply to_size_t_small.
  unfold is_size_t in *. split; [nia | exact Hfit].
Qed.

(** C6: for [n], [s] of type [size_t], the overflow check in front of
    the product is false exactly when [n * s] fits, and then the allocator
    is asked for the exact product; when [n * s] exceeds [SIZE_MAX] the
    check is true and no allocator call is made ([reallocarray] returns
    [NULL] with [errno = ENOMEM], [xreallocarray] prints and aborts). *)
Theorem checked_multiply_exact libc ENOMEM p n s w :
  is_size_t n → is_size_t s →
  (n * s <= SIZE_MAX →
     xreallocarray_overflowed n s = false
     ∧ reallocarray_overflowed n s = false
     ∧ size_mul n s = n * s
     ∧ xreallocarray libc p n s w = xrealloc libc p (n * s) w
     ∧ reallocarray libc ENOMEM p n s w = realloc libc p (n * s) w)
  ∧ (SIZE_MAX < n * s →
     xreallocarray_overflowed n s = true
     ∧ reallocarray_overflowed n s = true
     ∧ xreallocarray libc p n s w = Aborted (log (EvStderr diagnostic) w)
     ∧ reallocarray libc ENOMEM p n s w
       = Returned NULL (mkWorld (trace w) (objects w) ENOMEM)
     ∧ allocations (trace (log (EvStderr diagnostic) w)) = allocations (trace w)).
Proof.
  intros Hn Hs.
  pose proof (xreallocarray_overflowed_spec n s Hn Hs) as Hx.
  pose proof (reallocarray_overflowed_spec n s Hn Hs) as Hr.
  split; intros Hprod.
  - assert (Hno : (n * s >? SIZE_MAX) = false)
      by (destruct (Z.gtb_spec (n * s) SIZE_MAX); [lia | reflexivity]).
    rewrite Hno in Hx, Hr.
    rewrite xreallocarray_run, reallocarray_run, Hx, Hr.
    by rewrite (size_mul_fits n s Hn Hs Hprod).
  - assert (Hyes : (n * s >? SIZE_MAX) = true)
      by (destruct (Z.gtb_spec (n * s) SIZE_MAX); [reflexivity | lia]).
    rewrite Hyes in Hx, Hr.
    rewrite xreallocarray_run, reallocarray_run, Hx, Hr.
    repeat (split; [reflexivity |]).
    unfold allocations, log. cbn. rewrite List.filter_app. cbn. apply app_nil_r.
Qed.

Lemma checked_multiply_exact_witness :
  (xreallocarray plentiful 7 3 8 (start 0) = xrealloc plentiful 7 24 (start 0))
  ∧ xreallocarray plentiful 7 SIZE_MAX 2 (start 0)
    = Aborted (log (EvStderr diagnostic) (start 0)).
Proof.
  split.
  - apply (proj1 (checked_multiply_exact plentiful 12 7 3 8 (start 0)
                    ltac:(in_range) ltac:(in_range))).
    in_range.
  - apply (proj2 (checked_multiply_exact plentiful 12 7 SIZE_MAX 2 (start 0)
                    ltac:(in_range) ltac:(in_range))).
    in_range.
Defined.

(** ** Exhaustion *)

(** C7: when the allocator has no block for a request of [n ≠ 0] bytes
    ([n ≠ 0] and [s ≠ 0] for [xcalloc]), [xmalloc], [xrealloc] and
    [xcalloc] write the diagnostic to [stderr] and abort; [xstrdup] does
    so for every string.  None of them ever returns [NULL] for such a
    request. *)
Theorem exhaustion_is_fatal libc p n s w :
  n ≠ 0 →
  (libc (trace w) (Malloc n) = NULL →
     xmalloc libc n w
     = Aborted (mkWorld (trace w ++ [EvAlloc (Malloc n) NULL; EvStderr diagnostic])
                  (objects w) (errno w)))
  ∧ (libc (trace w) (Realloc p n) = NULL →
     xrealloc libc p n w
     = Aborted (mkWorld (trace w ++ [EvAlloc (Realloc p n) NULL; EvStderr diagnostic])
                  (objects w) (errno w)))
  ∧ (s ≠ 0 → libc (trace w) (Calloc n s) = NULL →
     xcalloc libc n s w
     = Aborted (mkWorld (trace w ++ [EvAlloc (Calloc n s) NULL; EvStderr diagnostic])
                  (objects w) (errno w)))
  ∧ (libc (trace w) (Strdup p) = NULL →
     xstrdup libc p w
     = Aborted (mkWorld (trace w ++ [EvAlloc (Strdup p) NULL; EvStderr diagnostic])
                  (objects w) (errno w)))
  ∧ (∀ r w', xmalloc libc n w = Returned r w' → r ≠ NULL)
  ∧ (∀ r w', xrealloc libc p n w = Returned r w' → r ≠ NULL)
  ∧ (s ≠ 0 → ∀ r w', xcalloc libc n s w = Returned r w' → r ≠ NULL)
  ∧ (∀ r w', xstrdup libc p w = Returned r w' → r ≠ NULL).
Proof.
  intros Hn.
  assert (Hnz : (n =? 0) = false) by by apply Z.eqb_neq.
  repeat split.
  - intros Hnull. rewrite xmalloc_run, Hnull, Hnz. cbn.
    unfold died, answered, log. cbn. rewrite Hnull, <- List.app_assoc. reflexivity.
  - intros Hnull. rewrite xrealloc_run, Hnull, Hnz. cbn.
    unfold died, answered, log. cbn. rewrite Hnull, <- List.app_assoc. reflexivity.
  - intros Hs Hnull. rewrite xcalloc_run, Hnull, Hnz.
    apply Z.eqb_neq in Hs. rewrite Hs. cbn.
    unfold died, answered, log. cbn. rewrite Hnull, <- List.app_assoc. reflexivity.
  - intros Hnull. rewrite xstrdup_run, Hnull. cbn.
    unfold died, answered, log. cbn. rewrite Hnull, <- List.app_assoc. reflexivity.
  - intros r w'. rewrite xmalloc_run, Hnz, andb_true_r.
    destruct (Z.eqb_spec (libc (trace w) (Malloc n)) NULL); [done |].
    by intros [= <- _].
  - intros r w'. rewrite xrealloc_run, Hnz, andb_true_r.
    destruct (Z.eqb_spec (libc (trace w) (Realloc p n)) NULL); [done |].
    by intros [= <- _].
  - intros Hs r w'. apply Z.eqb_neq in Hs.
    rewrite xcalloc_run, Hnz, Hs, !andb_true_r.
    destruct (Z.eqb_spec (libc (trace w) (Calloc n s)) NULL); [done |].
    by intros [= <- _].
  - intros r w'. rewrite xstrdup_run.
    destruct (Z.eqb_spec (libc (trace w) (Strdup p)) NULL); [done |].
    by intros [= <- _].
Qed.

Lemma exhaustion_is_fatal_witness :
  xmalloc exhausted 8 (start 0)
  = Aborted (mkWorld [EvAlloc (Malloc 8) NULL; EvStderr diagnostic] {[ 100 := 0 ]} 0).
Proof.
  apply (proj1 (exhaustion_is_fatal exhausted 7 8 1 (start 0) ltac:(lia))).
  reflexivity.
Defined.

(** ** Zero-sized requests *)

Lemma size_mul_zero n s : n = 0 ∨ s = 0 → size_mul n s = 0.
Proof.
  intros [-> | ->]; unfold size_mul; [| rewrite Z.mul_0_r]; reflexivity.
Qed.

(** C8: a request with [n = 0] or [s = 0] makes [xnmalloc], [xcalloc]
    and [xreallocarray] return what the allocator answered, block or
    [NULL], and so do [xmalloc] and [xrealloc] asked for 0 bytes; none
    aborts.  [xnmalloc(0, 8)] with an allocator that has no block returns
    [NULL]. *)
Theorem zero_sized_request_returns libc p n s w :
  is_size_t n → is_size_t s → n = 0 ∨ s = 0 →
  xnmalloc libc n s w
  = Returned (libc (trace w) (Malloc 0)) (answered libc (Malloc 0) w)
  ∧ xcalloc libc n s w
    = Returned (libc (trace w) (Calloc n s)) (answered libc (Calloc n s) w)
  ∧ xreallocarray libc p n s w
    = Returned (libc (trace w) (Realloc p 0)) (answered libc (Realloc p 0) w)
  ∧ xmalloc libc 0 w
    = Returned (libc (trace w) (Malloc 0)) (answered libc (Malloc 0) w)
  ∧ xrealloc libc p 0 w
    = Returned (libc (trace w) (Realloc p 0)) (answered libc (Realloc p 0) w)
  ∧ xnmalloc exhausted 0 8 w
    = Returned NULL (mkWorld (trace w ++ [EvAlloc (Malloc 0) NULL]) (objects w) (errno w)).
Proof.
  intros Hn Hs Hzero.
  assert (Hm : xmalloc libc 0 w
               = Returned (libc (trace w) (Malloc 0)) (answered libc (Malloc 0) w)).
  { rewrite xmalloc_run. cbn. by rewrite andb_false_r. }
  assert (Hr : xrealloc libc p 0 w
               = Returned (libc (trace w) (Realloc p 0)) (answered libc (Realloc p 0) w)).
  { rewrite xrealloc_run. cbn. by rewrite andb_false_r. }
  split; [| split; [| split; [| split; [| split]]]]; try done.
  - unfold xnmalloc. by rewrite (size_mul_zero n s Hzero).
  - rewrite xcalloc_run.
    destruct Hzero as [-> | ->]; cbn; by rewrite ?andb_false_r.
  - rewrite xreallocarray_run, xreallocarray_overflowed_spec by done.
    rewrite (size_mul_zero n s Hzero).
    assert (Hprod : n * s = 0) by (destruct Hzero as [-> | ->]; lia).
    by rewrite Hprod.
Qed.

Lemma zero_sized_request_returns_witness :
  xcalloc exhausted 0 8 (start 0)
  = Returned NULL (answered exhausted (Calloc 0 8) (start 0)).
Proof.
  apply (zero_sized_request_returns exhausted 7 0 8 (start 0));
    [in_range | in_range | left; reflexivity].
Defined.

(** ** The disabled dynamic-array resize *)

(** C9: [gl_dynarray_resize] returns [false] for all arguments and
    leaves the state of the process as it was. *)
Theorem gl_dynarray_resize_fails list size scratch element w :
  gl_dynarray_resize list size scratch element w = Returned false w.
Proof. reflexivity. Qed.

(** ** Doubling *)

Lemma next_count_doubled n :
  is_size_t n → 2 * n <= SIZE_MAX → next_count n 1 (-1) = doubled n.
Proof.
  intros Hn Hfit.
  assert (Hmax : Z.max n 1 = if n =? 0 then 1 else n).
  { unfold is_size_t in Hn. destruct (Z.eqb_spec n 0); lia. }
  rewrite next_count_fits; [| done | in_range | in_range |].
  - cbn [Z.geb Z.compare andb]. unfold doubled. rewrite Hmax.
    destruct (Z.eqb_spec n 0); lia.
  - rewrite Hmax. destruct (Z.eqb_spec n 0); [in_range | lia].
Qed.

(** C10: [x2nrealloc(p, pn, s)] is [xpalloc(p, pn, 1, -1, s)] and
    [x2realloc(p, pn)] is [xpalloc(p, pn, 1, -1, 1)], for every allocator
    and state; a stored capacity [n] with [2 * n] fitting [size_t] becomes
    1 when it is 0 and [2 * n] otherwise, so growth from 0 reaches 1. *)
Theorem doubling_is_xpalloc libc p pn s w :
  x2nrealloc libc p pn s w = xpalloc libc p pn 1 (-1) s w
  ∧ x2realloc libc p pn w = xpalloc libc p pn 1 (-1) 1 w
  ∧ (∀ n, objects w !! pn = Some n → is_size_t n → 2 * n <= SIZE_MAX →
       (∃ w', final (x2nrealloc libc p pn s w) = Some w'
              ∧ objects w' !! pn = Some (doubled n))
       ∧ (∃ w', final (x2realloc libc p pn w) = Some w'
                ∧ objects w' !! pn = Some (doubled n)))
  ∧ (objects w !! pn = Some 0 →
       (∃ w', final (x2nrealloc libc p pn s w) = Some w' ∧ objects w' !! pn = Some 1)
       ∧ (∃ w', final (x2realloc libc p pn w) = Some w' ∧ objects w' !! pn = Some 1)).
Proof.
  assert (Step : ∀ s' n, objects w !! pn = Some n → is_size_t n → 2 * n <= SIZE_MAX →
            ∃ w', final (xpalloc libc p pn 1 (-1) s' w) = Some w'
                  ∧ objects w' !! pn = Some (doubled n)).
  { intros s' n Hn Hn' Hfit.
    destruct (xpalloc_final libc p pn 1 (-1) s' n w Hn) as (w' & Hf & Ho & _).
    rewrite next_count_doubled in Ho by done. by exists w'. }
  split; [reflexivity |]. split; [reflexivity |]. split.
  - intros n Hn Hn' Hfit. unfold x2nrealloc, x2realloc. split; by apply Step.
  - intros H0. unfold x2nrealloc, x2realloc.
    split; apply (Step _ 0 H0); in_range.
Qed.

Lemma doubling_is_xpalloc_witness :
  (∃ w', final (x2nrealloc exhausted 7 100 8 (start 0)) = Some w'
         ∧ objects w' !! 100 = Some 1)
  ∧ (∃ w', final (x2nrealloc plentiful 7 100 8 (start 4)) = Some w'
           ∧ objects w' !! 100 = Some 8).
Proof.
  split.
  - destruct (doubling_is_xpalloc exhausted 7 100 8 (start 0)) as (_ & _ & _ & Hzero).
    apply Hzero. reflexivity.
  - destruct (doubling_is_xpalloc plentiful 7 100 8 (start 4)) as (_ & _ & Hstep & _).
    apply (Hstep 4); [reflexivity | in_range ..].
Defined.

(** ** Rotation *)

Lemma size_t_high_bits x i : is_size_t x → 64 <= i → Z.testbit x i = false.
Proof.
  intros Hx Hi. rewrite <- (to_size_t_small x Hx).
  unfold to_size_t, SIZE_MOD, SIZE_BITS. apply Z.mod_pow2_bits_high. lia.
Qed.

(** A number whose bits from 64 up are clear is a [size_t]. *)
Lemma is_size_t_by_bits y :
  (∀ i, 64 <= i → Z.testbit y i = false) → is_size_t y.
Proof.
  intros Hhigh.
  assert (Heq : y mod 2 ^ 64 = y).
  { apply Z.bits_inj'. intros i Hi.
    destruct (Z.lt_ge_cases i 64) as [Hlt | Hge].
    - apply Z.mod_pow2_bits_low. lia.
    - rewrite Z.mod_pow2_bits_high by lia. symmetry. by apply Hhigh. }
  pose proof (Z.mod_pos_bound y (2 ^ 64) ltac:(reflexivity)) as Hb.
  rewrite Heq in Hb. unfold is_size_t, SIZE_MAX, SIZE_MOD, SIZE_BITS. lia.
Qed.

(** Two [size_t] values with the same 64 low bits are equal. *)
Lemma size_t_bits_eq x y :
  is_size_t x → is_size_t y →
  (∀ i, 0 <= i < 64 → Z.testbit x i = Z.testbit y i) → x = y.
Proof.
  intros Hx Hy Hbits. apply Z.bits_inj'. intros i Hi.
  destruct (Z.lt_ge_cases i 64) as [Hlt | Hge].
  - apply Hbits. lia.
  - by rewrite !size_t_high_bits.
Qed.

Lemma rotr_sz_nonneg x n :
  0 <= n →
  rotr_sz x n =
    Some (if n mod 64 =? 0 then x
          else Z.lor (Z.shiftr x (n mod 64))
                 (to_size_t (Z.shiftl x (64 - n mod 64)))).
Proof.
  intros Hn. unfold rotr_sz. change (8 * 8) with 64.
  rewrite Z.rem_mod_nonneg by lia.
  pose proof (Z.mod_pos_bound n 64 ltac:(lia)) as Hm.
  destruct (Z.eqb_spec (n mod 64) 0); [reflexivity |].
  destruct (Z.ltb_spec (n mod 64) 0); [lia | reflexivity].
Qed.

(** Bit [i] of the rotated word, for a shift count [k] in [1, 63]. *)
Lemma rotated_bit x k i :
  is_size_t x → 0 < k < 64 → 0 <= i →
  Z.testbit (Z.lor (Z.shiftr x k) (to_size_t (Z.shiftl x (64 - k)))) i =
    if i <? 64 then Z.testbit x ((i + k) mod 64) else false.
Proof.
  intros Hx Hk Hi.
  rewrite Z.lor_spec, Z.shiftr_spec by lia.
  unfold to_size_t, SIZE_MOD, SIZE_BITS.
  destruct (Z.ltb_spec i 64) as [Hlt | Hge].
  - rewrite Z.mod_pow2_bits_low by lia.
    rewrite Z.shiftl_spec by lia.
    destruct (Z.lt_ge_cases (i + k) 64) as [Hlow | Hwrap].
    + rewrite (Z.mod_small (i + k) 64) by lia.
      rewrite (Z.testbit_neg_r x (i - (64 - k))) by lia.
      apply orb_false_r.
    + replace ((i + k) mod 64) with (i - (64 - k)).
      * rewrite (size_t_high_bits x (i + k)) by (done || lia). reflexivity.
      * symmetry. rewrite <- (Z.mod_small (i - (64 - k)) 64) by lia.
        replace (i + k) with (i - (64 - k) + 1 * 64) by lia.
        apply Z.mod_add. lia.
  - rewrite Z.mod_pow2_bits_high by lia.
    rewrite (size_t_high_bits x (i + k)) by (done || lia). reflexivity.
Qed.

(** X1: for a [size_t] [x] and a count [n >= 0], [rotr_sz] returns a
    [size_t] whose bit [i] is bit [(i + n) mod 64] of [x]. *)
Theorem rotr_sz_bits x n :
  is_size_t x → 0 <= n →
  ∃ y, rotr_sz x n = Some y
       ∧ is_size_t y
       ∧ ∀ i, 0 <= i < 64 → Z.testbit y i = Z.testbit x ((i + n) mod 64).
Proof.
  intros Hx Hn. rewrite (rotr_sz_nonneg x n Hn).
  pose proof (Z.mod_pos_bound n 64 ltac:(lia)) as Hm.
  eexists. split; [reflexivity |].
  destruct (Z.eqb_spec (n mod 64) 0) as [Hz | Hnz].
  - split; [exact Hx |]. intros i Hi. f_equal.
    rewrite <- Zplus_mod_idemp_r, Hz, Z.add_0_r. symmetry. apply Z.mod_small. lia.
  - split.
    + apply is_size_t_by_bits. intros i Hi.
      rewrite rotated_bit by (done || lia).
      destruct (Z.ltb_spec i 64); [lia | reflexivity].
    + intros i Hi. rewrite rotated_bit by (done || lia).
      destruct (Z.ltb_spec i 64); [| lia].
      f_equal. by rewrite Zplus_mod_idemp_r.
Qed.

Lemma rotr_sz_bits_witness :
  ∃ y, rotr_sz 6 1 = Some y
       ∧ is_size_t y
       ∧ ∀ i, 0 <= i < 64 → Z.testbit y i = Z.testbit 6 ((i + 1) mod 64).
Proof. apply (rotr_sz_bits 6 1); [in_range | lia]. Defined.

(** X2: rotating by [a] and then by [b] is rotating by [a + b]. *)
Theorem rotr_sz_compose x y a b :
  is_size_t x → 0 <= a → 0 <= b →
  rotr_sz x a = Some y →
  rotr_sz y b = rotr_sz x (a + b).
Proof.
  intros Hx Ha Hb Hy.
  destruct (rotr_sz_bits x a Hx Ha) as (y' & Hy' & Hry & Hbits_y).
  rewrite Hy in Hy'. injection Hy' as <-.
  destruct (rotr_sz_bits y b Hry Hb) as (z & Hz & Hrz & Hbits_z).
  destruct (rotr_sz_bits x (a + b) Hx ltac:(lia)) as (z' & Hz' & Hrz' & Hbits_z').
  rewrite Hz, Hz'. f_equal.
  apply size_t_bits_eq; try done.
  intros i Hi. rewrite Hbits_z, Hbits_z' by done.
  pose proof (Z.mod_pos_bound (i + b) 64 ltac:(lia)) as Hm.
  rewrite Hbits_y by lia. f_equal.
  rewrite Zplus_mod_idemp_l. f_equal. lia.
Qed.

Lemma rotr_sz_compose_witness :
  rotr_sz 3 70 = rotr_sz 6 (1 + 70).
Proof.
  apply (rotr_sz_compose 6 3 1 70); [in_range | lia | lia | reflexivity].
Defined.

(** X3: rotating back by [64 - n mod 64] restores the word. *)
Theorem rotr_sz_inverse x y n :
  is_size_t x → 0 <= n →
  rotr_sz x n = Some y →
  rotr_sz y (64 - n mod 64) = Some x.
Proof.
  intros Hx Hn Hy.
  pose proof (Z.mod_pos_bound n 64 ltac:(lia)) as Hm.
  rewrite (rotr_sz_compose x y n (64 - n mod 64)) by (done || lia).
  rewrite rotr_sz_nonneg by lia.
  replace ((n + (64 - n mod 64)) mod 64) with 0; [reflexivity |].
  symmetry. rewrite (Z.div_mod n 64) at 1 by lia.
  replace (64 * (n / 64) + n mod 64 + (64 - n mod 64)) with ((n / 64 + 1) * 64) by lia.
  apply Z.mod_mul. lia.
Qed.

Lemma rotr_sz_inverse_witness :
  rotr_sz (2 ^ 63) (64 - 1 mod 64) = Some 1.
Proof.
  apply (rotr_sz_inverse 1 (2 ^ 63) 1); [in_range | lia | reflexivity].
Defined.

(** ** Byte scans *)

(** What the downward scan of [n] bytes below [p] returns: [NULL] when
    none of them is the byte, else the highest address that holds it. *)
Lemma memrchr_loop_spec mem c n : ∀ p,
  (memrchr_loop mem p c n = NULL
   ∧ ∀ q, p - Z.of_nat n <= q < p → mem q ≠ to_uchar c)
  ∨ (p - Z.of_nat n <= memrchr_loop mem p c n < p
     ∧ mem (memrchr_loop mem p c n) = to_uchar c
     ∧ ∀ q, memrchr_loop mem p c n < q < p → mem q ≠ to_uchar c).
Proof.
  induction n as [| n IH]; intros p.
  - left. split; [reflexivity | intros q Hq; lia].
  - cbn [memrchr_loop].
    destruct (Z.eqb_spec (mem (p - 1)) (to_uchar c)) as [Heq | Hne].
    + right. split; [lia |]. split; [exact Heq | intros q Hq; lia].
    + destruct (IH (p - 1)) as [[Hnull Hnone] | (Hrange & Hbyte & Hlast)].
      * left. split; [exact Hnull |]. intros q Hq.
        destruct (Z.eq_dec q (p - 1)) as [-> | Hq']; [exact Hne |].
        apply Hnone. lia.
      * right. split; [lia |]. split; [exact Hbyte |]. intros q Hq.
        destruct (Z.eq_dec q (p - 1)) as [-> | Hq']; [exact Hne |].
        apply Hlast. lia.
Qed.

Lemma memrchr_spec mem s c n :
  0 <= n →
  (memrchr mem s c n = NULL ∧ ∀ q, s <= q < s + n → mem q ≠ to_uchar c)
  ∨ (s <= memrchr mem s c n < s + n
     ∧ mem (memrchr mem s c n) = to_uchar c
     ∧ ∀ q, memrchr mem s c n < q < s + n → mem q ≠ to_uchar c).
Proof.
  intros Hn. unfold memrchr.
  destruct (memrchr_loop_spec mem c (Z.to_nat n) (s + n)) as [[H1 H2] | (H1 & H2 & H3)].
  - left. split; [exact H1 |]. intros q Hq. apply H2. lia.
  - right. split; [lia |]. by split.
Qed.

(** X5: when the byte [(unsigned char) c] occurs among the [n] bytes
    from [s], [memrchr] returns the address of its last occurrence. *)
Theorem memrchr_last mem s c n q :
  0 < s → 0 <= n →
  s <= q < s + n → mem q = to_uchar c →
  (∀ q', q < q' < s + n → mem q' ≠ to_uchar c) →
  memrchr mem s c n = q.
Proof.
  intros Hs Hn Hq Hbyte Hlast.
  destruct (memrchr_spec mem s c n Hn) as [[_ Hnone] | (Hrange & Hb & Hl)].
  - exfalso. by apply (Hnone q).
  - destruct (Z.lt_trichotomy (memrchr mem s c n) q) as [Hlt | [Heq | Hgt]].
    + exfalso. apply (Hl q); [lia | exact Hbyte].
    + exact Heq.
    + exfalso. apply (Hlast (memrchr mem s c n)); [lia | exact Hb].
Qed.

Lemma memrchr_last_witness :
  memrchr (λ a, if a =? 12 then 47 else if a =? 14 then 47 else 97) 10 47 8 = 14.
Proof.
  apply memrchr_last; [lia | lia | lia | reflexivity |].
  intros q' Hq'.
  destruct (Z.eqb_spec q' 12); [lia |].
  destruct (Z.eqb_spec q' 14); [lia |].
  discriminate.
Defined.

(** X6: for a non-null [s], [memrchr] returns [NULL] exactly when the
    byte [(unsigned char) c] is none of the [n] bytes from [s]; with
    [n = 0] it always does. *)
Theorem memrchr_null_iff_absent mem s c n :
  0 < s → 0 <= n →
  memrchr mem s c n = NULL ↔ ∀ q, s <= q < s + n → mem q ≠ to_uchar c.
Proof.
  intros Hs Hn.
  destruct (memrchr_spec mem s c n Hn) as [[Hnull Hnone] | (Hrange & Hb & Hl)].
  - split; [intros _; exact Hnone | intros _; exact Hnull].
  - split.
    + unfold NULL. intros H0. lia.
    + intros Hnone. exfalso. by apply (Hnone (memrchr mem s c n)).
Qed.

Lemma memrchr_null_iff_absent_witness :
  memrchr (λ _, 97) 10 47 0 = NULL ↔ ∀ q, 10 <= q < 10 + 0 → (λ _, 97) q ≠ to_uchar 47.
Proof. apply memrchr_null_iff_absent; lia. Defined.

(** X7: [memrchr] reads only the [n] bytes from [s]: two memories that
    agree there give the same result. *)
Theorem memrchr_reads_only_its_range mem mem' s c n :
  0 <= n →
  (∀ q, s <= q < s + n → mem q = mem' q) →
  memrchr mem s c n = memrchr mem' s c n.
Proof.
  intros Hn Hagree. unfold memrchr.
  assert (Hloop : ∀ k p, p - Z.of_nat k >= s → p <= s + n →
            memrchr_loop mem p c k = memrchr_loop mem' p c k).
  { induction k as [| k IH]; intros p Hlow Hhigh; [reflexivity |].
    cbn [memrchr_loop]. rewrite (Hagree (p - 1)) by lia.
    destruct (mem' (p - 1) =? to_uchar c); [reflexivity |].
    apply IH; lia. }
  apply Hloop; lia.
Qed.

Lemma memrchr_reads_only_its_range_witness :
  memrchr (λ a, if a <? 20 then 97 else 47) 10 47 8
  = memrchr (λ _, 97) 10 47 8.
Proof.
  apply memrchr_reads_only_its_range; [lia |].
  intros q Hq. destruct (Z.ltb_spec q 20); [reflexivity | lia].
Defined.

(** X8: when the byte first occurs [k] bytes after [s], [rawmemchr]
    returns [s + k] as soon as it may take more than [k] steps. *)
Theorem rawmemchr_first mem c k : ∀ s fuel,
  0 <= k →
  mem (s + k) = to_uchar c →
  (∀ j, 0 <= j < k → mem (s + j) ≠ to_uchar c) →
  (Z.to_nat k < fuel)%nat →
  rawmemchr fuel mem s c = Some (s + k).
Proof.
  intros s fuel Hk. revert s fuel.
  pattern k. apply Zlt_0_ind; [| exact Hk]. clear k Hk.
  intros k IH Hk s fuel Hbyte Hfirst Hfuel.
  destruct fuel as [| fuel]; [lia |]. cbn [rawmemchr].
  destruct (Z.eqb_spec (mem s) (to_uchar c)) as [Heq | Hne]; cbn [negb].
  - destruct (Z.eq_dec k 0) as [-> | Hk0]; [by rewrite Z.add_0_r |].
    exfalso. apply (Hfirst 0); [lia |]. by rewrite Z.add_0_r.
  - destruct (Z.eq_dec k 0) as [-> | Hk0].
    { exfalso. rewrite Z.add_0_r in Hbyte. done. }
    replace (s + k) with (s + 1 + (k - 1)) by lia.
    apply IH; [lia | | | lia].
    + by replace (s + 1 + (k - 1)) with (s + k) by lia.
    + intros j Hj. replace (s + 1 + j) with (s + (j + 1)) by lia. apply Hfirst. lia.
Qed.

Lemma rawmemchr_first_witness :
  rawmemchr 5 (λ a, if a =? 12 then 47 else 97) 10 47 = Some (10 + 2).
Proof.
  apply rawmemchr_first; [lia | reflexivity | | cbn; lia].
  intros j Hj. destruct (Z.eqb_spec (10 + j) 12); [lia | discriminate].
Defined.

(** X9: [rawmemchr] has no length limit: as long as the bytes it meets
    differ from [(unsigned char) c] it goes on to the next address. *)
Theorem rawmemchr_runs_on mem c fuel : ∀ s,
  (∀ j, 0 <= j < Z.of_nat fuel → mem (s + j) ≠ to_uchar c) →
  rawmemchr fuel mem s c = None.
Proof.
  induction fuel as [| fuel IH]; intros s Hnone; [reflexivity |].
  cbn [rawmemchr].
  destruct (Z.eqb_spec (mem s) (to_uchar c)) as [Heq | Hne]; cbn [negb].
  - exfalso. apply (Hnone 0); [lia |]. by rewrite Z.add_0_r.
  - apply IH. intros j Hj. replace (s + 1 + j) with (s + (j + 1)) by lia.
    apply Hnone. lia.
Qed.

Lemma rawmemchr_runs_on_witness :
  rawmemchr 9 (λ _, 97) 10 47 = None.
Proof.
  apply rawmemchr_runs_on. intros j Hj. discriminate.
Defined.

(** ** Counting multibyte characters *)

Section MultibyteFacts.

Variable mbstate_t : Type.
Variable zero_state : mbstate_t.
Variable MB_LEN_MAX : Z.
Variable mbrlen : Z → Z → mbstate_t → Z * mbstate_t.
Variable mem : Z → Z.

(** The string at [s]: [L] non-zero bytes and their terminator. *)
Variables s L : Z.
Hypothesis L_size : is_size_t L.
Hypothesis nonzero : ∀ i, 0 <= i < L → mem (s + i) ≠ 0.
Hypothesis terminated : mem (s + L) = 0.

(** With an [mbrlen] that never reports a character longer than what is
    left of the string, the loop started [i] bytes into it ends and adds
    at most one per remaining byte. *)
Lemma mbslen_loop_bounded :
  (∀ i st, 0 <= i < L →
     (mbrlen (s + i) MB_LEN_MAX st).1 = to_size_t (-1)
     ∨ (mbrlen (s + i) MB_LEN_MAX st).1 = to_size_t (-2)
     ∨ 0 <= (mbrlen (s + i) MB_LEN_MAX st).1 <= L - i) →
  ∀ fuel i len st,
    0 <= i <= L → 0 <= len → len + (L - i) <= SIZE_MAX →
    (Z.to_nat (L - i) < fuel)%nat →
    ∃ len', mbslen_loop mbstate_t MB_LEN_MAX mbrlen mem fuel (s + i) len st = Some len'
            ∧ len <= len' <= len + (L - i).
Proof.
  intros Horacle.
  induction fuel as [| fuel IH]; intros i len st Hi Hlen Hfit Hfuel; [lia |].
  cbn [mbslen_loop].
  destruct (Z.eqb_spec (mem (s + i)) 0) as [Hz | Hnz].
  { exists len. split; [reflexivity | lia]. }
  assert (Hi' : 0 <= i < L).
  { destruct (Z.eq_dec i L) as [-> | Hne]; [by rewrite terminated in Hnz | lia]. }
  specialize (Horacle i st Hi').
  destruct (mbrlen (s + i) MB_LEN_MAX st) as [bytes st'] eqn:Hcall. cbn [fst] in Horacle.
  assert (Hinc : size_add len 1 = len + 1).
  { apply to_size_t_small. unfold is_size_t. lia. }
  destruct ((bytes =? to_size_t (-1)) || (bytes =? to_size_t (-2))) eqn:Hinvalid.
  - destruct (IH (i + 1) (size_add len 1) st') as (len' & Hrun & Hbound);
      [lia | lia | lia | lia |].
    exists len'. rewrite Z.add_assoc in Hrun. split; [exact Hrun | lia].
  - apply orb_false_iff in Hinvalid as [H1 H2].
    apply Z.eqb_neq in H1, H2.
    destruct Horacle as [? | [? | Hvalid]]; [done | done |].
    destruct (Z.eqb_spec bytes 0) as [Hstop | Hgo].
    + exists len. split; [reflexivity | lia].
    + destruct (IH (i + bytes) (size_add len 1) st') as (len' & Hrun & Hbound);
        [lia | lia | lia | lia |].
      exists len'. rewrite Z.add_assoc in Hrun. split; [exact Hrun | lia].
Qed.

(** With an [mbrlen] that reports every byte of the string as a
    character of one byte or as invalid or incomplete, the loop counts
    every remaining byte. *)
Lemma mbslen_loop_bytewise :
  (∀ i st, 0 <= i < L →
     (mbrlen (s + i) MB_LEN_MAX st).1 = 1
     ∨ (mbrlen (s + i) MB_LEN_MAX st).1 = to_size_t (-1)
     ∨ (mbrlen (s + i) MB_LEN_MAX st).1 = to_size_t (-2)) →
  ∀ fuel i len st,
    0 <= i <= L → 0 <= len → len + (L - i) <= SIZE_MAX →
    (Z.to_nat (L - i) < fuel)%nat →
    mbslen_loop mbstate_t MB_LEN_MAX mbrlen mem fuel (s + i) len st = Some (len + (L - i)).
Proof.
  intros Horacle.
  induction fuel as [| fuel IH]; intros i len st Hi Hlen Hfit Hfuel; [lia |].
  cbn [mbslen_loop].
  destruct (Z.eqb_spec (mem (s + i)) 0) as [Hz | Hnz].
  { destruct (Z.eq_dec i L) as [-> | Hne]; [f_equal; lia |].
    exfalso. apply (nonzero i); [lia | exact Hz]. }
  assert (Hi' : 0 <= i < L).
  { destruct (Z.eq_dec i L) as [-> | Hne]; [by rewrite terminated in Hnz | lia]. }
  specialize (Horacle i st Hi').
  destruct (mbrlen (s + i) MB_LEN_MAX st) as [bytes st'] eqn:Hcall. cbn [fst] in Horacle.
  assert (Hinc : size_add len 1 = len + 1).
  { apply to_size_t_small. unfold is_size_t. lia. }
  assert (Hnext : mbslen_loop mbstate_t MB_LEN_MAX mbrlen mem fuel (s + i + 1)
                    (size_add len 1) st' = Some (len + (L - i))).
  { rewrite <- Z.add_assoc, IH by lia. f_equal. lia. }
  destruct Horacle as [-> | [-> | ->]]; cbn; exact Hnext.
Qed.

End MultibyteFacts.

(** X10: for a string of [L] bytes, and an [mbrlen] that never reports
    a character longer than what is left of the string, [mbslen] returns
    within [L + 1] steps and its count is at most [L]. *)
Theorem mbslen_at_most_bytes mbstate_t zero_state MB_LEN_MAX mbrlen mem s L fuel :
  is_size_t L →
  (∀ i, 0 <= i < L → mem (s + i) ≠ 0) →
  mem (s + L) = 0 →
  (∀ i (st : mbstate_t), 0 <= i < L →
     (mbrlen (s + i) MB_LEN_MAX st).1 = to_size_t (-1)
     ∨ (mbrlen (s + i) MB_LEN_MAX st).1 = to_size_t (-2)
     ∨ 0 <= (mbrlen (s + i) MB_LEN_MAX st).1 <= L - i) →
  (Z.to_nat L < fuel)%nat →
  ∃ len, mbslen mbstate_t zero_state MB_LEN_MAX mbrlen mem fuel s = Some len
         ∧ 0 <= len <= L.
Proof.
  intros HL Hnz Hend Horacle Hfuel. unfold mbslen.
  destruct (mbslen_loop_bounded mbstate_t MB_LEN_MAX mbrlen mem s L Hend Horacle
              fuel 0 0 zero_state) as (len & Hrun & Hbound).
  - unfold is_size_t in HL. lia.
  - lia.
  - unfold is_size_t in HL. lia.
  - by rewrite Z.sub_0_r.
  - exists len. rewrite Z.add_0_r in Hrun. split; [exact Hrun | lia].
Qed.

Lemma mbslen_at_most_bytes_witness :
  ∃ len, mbslen unit tt 16 (λ p _ st, (if p <? 13 then 2 else 1, st))
           (λ a, if a <? 14 then 97 else 0) 9 10
         = Some len
         ∧ 0 <= len <= 4.
Proof.
  apply (mbslen_at_most_bytes unit tt 16 (λ p _ st, (if p <? 13 then 2 else 1, st))
           (λ a, if a <? 14 then 97 else 0) 10 4 9).
  - in_range.
  - intros i Hi. destruct (Z.ltb_spec (10 + i) 14); [discriminate | lia].
  - reflexivity.
  - intros i st Hi. right. right. cbn [fst].
    destruct (Z.ltb_spec (10 + i) 13); lia.
  - cbn. lia.
Defined.

(** X11: for a string of [L] bytes each of which [mbrlen] reports as a
    character of one byte, as invalid or as incomplete, [mbslen] returns
    [L], the result of [strlen]. *)
Theorem mbslen_bytewise mbstate_t zero_state MB_LEN_MAX mbrlen mem s L fuel :
  is_size_t L →
  (∀ i, 0 <= i < L → mem (s + i) ≠ 0) →
  mem (s + L) = 0 →
  (∀ i (st : mbstate_t), 0 <= i < L →
     (mbrlen (s + i) MB_LEN_MAX st).1 = 1
     ∨ (mbrlen (s + i) MB_LEN_MAX st).1 = to_size_t (-1)
     ∨ (mbrlen (s + i) MB_LEN_MAX st).1 = to_size_t (-2)) →
  (Z.to_nat L < fuel)%nat →
  mbslen mbstate_t zero_state MB_LEN_MAX mbrlen mem fuel s = Some L.
Proof.
  intros HL Hnz Hend Horacle Hfuel. unfold mbslen.
  rewrite <- (Z.add_0_r s).
  rewrite (mbslen_loop_bytewise mbstate_t MB_LEN_MAX mbrlen mem s L Hnz Hend Horacle).
  - f_equal. lia.
  - unfold is_size_t in HL. lia.
  - lia.
  - unfold is_size_t in HL. lia.
  - by rewrite Z.sub_0_r.
Qed.

Lemma mbslen_bytewise_witness :
  mbslen unit tt 16 (λ p _ st, (if p =? 11 then to_size_t (-1) else 1, st))
    (λ a, if a <? 14 then 97 else 0) 9 10
  = Some 4.
Proof.
  apply (mbslen_bytewise unit tt 16
           (λ p _ st, (if p =? 11 then to_size_t (-1) else 1, st))
           (λ a, if a <? 14 then 97 else 0) 10 4 9).
  - in_range.
  - intros i Hi. destruct (Z.ltb_spec (10 + i) 14); [discriminate | lia].
  - reflexivity.
  - intros i st Hi. cbn [fst].
    destruct (Z.eqb_spec (10 + i) 11); [right; left | left]; reflexivity.
  - cbn. lia.
Defined.

(** ** The locale name in a caller's buffer *)

Lemma strlen_spec a : ∀ len,
  strlen a = Some len →
  0 <= len
  ∧ a !! Z.to_nat len = Some 0
  ∧ ∀ j b, (j < Z.to_nat len)%nat → a !! j = Some b → b ≠ 0.
Proof.
  induction a as [| x a IH]; intros len Hlen; [discriminate |].
  cbn [strlen] in Hlen.
  destruct (Z.eqb_spec x 0) as [-> | Hx].
  - injection Hlen as <-. split; [lia |]. split; [reflexivity |]. intros j b Hj. cbn in Hj. lia.
  - destruct (strlen a) as [l |] eqn:Hl; [| discriminate].
    cbn in Hlen. injection Hlen as <-.
    destruct (IH l eq_refl) as (Hpos & Hzero & Hbefore).
    split; [lia |].
    replace (Z.to_nat (l + 1)) with (S (Z.to_nat l)) by lia.
    split; [exact Hzero |].
    intros [| j] b Hj Hb.
    + cbn in Hb. by injection Hb as <-.
    + apply (Hbefore j b); [lia | exact Hb].
Qed.

Lemma strlen_intro a : ∀ k,
  a !! k = Some 0 →
  (∀ j b, (j < k)%nat → a !! j = Some b → b ≠ 0) →
  strlen a = Some (Z.of_nat k).
Proof.
  induction a as [| x a IH]; intros k Hk Hbefore; [discriminate |].
  cbn [strlen].
  destruct k as [| k].
  - cbn in Hk. injection Hk as ->. reflexivity.
  - destruct (Z.eqb_spec x 0) as [-> | Hx].
    + exfalso. by apply (Hbefore 0%nat 0); [lia | |].
    + rewrite (IH k).
      * cbn. f_equal. lia.
      * exact Hk.
      * intros j b Hj Hb. apply (Hbefore (S j) b); [lia | exact Hb].
Qed.

Lemma strlen_lt_length a len : strlen a = Some len → len < Z.of_nat (length a).
Proof.
  intros Hlen. destruct (strlen_spec a len Hlen) as (Hpos & Hzero & _).
  apply lookup_lt_Some in Hzero. lia.
Qed.

Lemma copy_in_run buf src n :
  0 <= n → n <= Z.of_nat (length buf) → n <= Z.of_nat (length src) →
  copy_in buf src n = Some (overwritten buf src n).
Proof.
  intros H0 Hbuf Hsrc. unfold copy_in.
  destruct (Z.leb_spec 0 n); [| lia].
  destruct (Z.leb_spec n (Z.of_nat (length buf))); [| lia].
  destruct (Z.leb_spec n (Z.of_nat (length src))); [| lia].
  reflexivity.
Qed.

Lemma overwritten_length buf src n :
  0 <= n → n <= Z.of_nat (length buf) → n <= Z.of_nat (length src) →
  length (overwritten buf src n) = length buf.
Proof.
  intros H0 Hbuf Hsrc. unfold overwritten.
  rewrite length_app, length_take, length_drop. lia.
Qed.

Lemma overwritten_low buf src n i :
  0 <= n → n <= Z.of_nat (length src) → (i < Z.to_nat n)%nat →
  overwritten buf src n !! i = src !! i.
Proof.
  intros H0 Hsrc Hi. unfold overwritten.
  rewrite lookup_app_l by (rewrite length_take; lia).
  by apply lookup_take_lt.
Qed.

Lemma overwritten_high buf src n i :
  0 <= n → n <= Z.of_nat (length buf) → n <= Z.of_nat (length src) →
  (Z.to_nat n <= i)%nat →
  overwritten buf src n !! i = buf !! i.
Proof.
  intros H0 Hbuf Hsrc Hi. unfold overwritten.
  rewrite lookup_app_r by (rewrite length_take; lia).
  rewrite length_take, lookup_drop. f_equal. lia.
Qed.

Lemma poke_run buf i b :
  0 <= i < Z.of_nat (length buf) → poke buf i b = Some (<[Z.to_nat i := b]> buf).
Proof.
  intros Hi. unfold poke.
  destruct (Z.leb_spec 0 i); [| lia].
  destruct (Z.ltb_spec i (Z.of_nat (length buf))); [| lia].
  reflexivity.
Qed.

Lemma setlocale_null_r_run setlocale EINVAL ERANGE category buf bufsize :
  is_size_t bufsize → bufsize <= Z.of_nat (length buf) →
  (∀ locale, setlocale category = Some locale → is_Some (strlen locale)) →
  setlocale_null_r setlocale EINVAL ERANGE category buf bufsize
  = Some (code_after EINVAL ERANGE (setlocale category) bufsize,
          buffer_after (setlocale category) buf bufsize).
Proof.
  intros Hsize Hbuf Hterm. unfold setlocale_null_r, code_after, buffer_after.
  assert (Hsub : 0 < bufsize → size_sub bufsize 1 = bufsize - 1).
  { intros Hpos. apply to_size_t_small. unfold is_size_t in *. lia. }
  destruct (setlocale category) as [locale |] eqn:Hloc.
  - destruct (Hterm locale eq_refl) as [len Hlen]. rewrite Hlen. cbn.
    pose proof (strlen_lt_length locale len Hlen) as Hlt.
    destruct (strlen_spec locale len Hlen) as (Hpos & _ & _).
    destruct (Z.geb_spec len bufsize) as [Hbig | Hsmall].
    + destruct (Z.gtb_spec bufsize 0) as [Hnz | Hz]; [| reflexivity].
      rewrite (Hsub Hnz), copy_in_run by lia. cbn.
      rewrite poke_run by (rewrite overwritten_length; lia). reflexivity.
    + assert (Hadd : size_add len 1 = len + 1).
      { apply to_size_t_small. unfold is_size_t in *. lia. }
      rewrite Hadd, copy_in_run by lia. reflexivity.
  - destruct (Z.gtb_spec bufsize 0) as [Hnz | Hz]; [| reflexivity].
    rewrite poke_run by lia. reflexivity.
Qed.

(** X12: given a buffer that really has [bufsize] bytes and a locale
    name that is terminated, [setlocale_null_r] writes inside the buffer
    only: it returns, the buffer keeps its length, and every byte from
    index [bufsize] on is as it was. *)
Theorem setlocale_null_r_stays_in_buffer setlocale EINVAL ERANGE category buf bufsize :
  is_size_t bufsize → bufsize <= Z.of_nat (length buf) →
  (∀ locale, setlocale category = Some locale → is_Some (strlen locale)) →
  ∃ code buf',
    setlocale_null_r setlocale EINVAL ERANGE category buf bufsize = Some (code, buf')
    ∧ length buf' = length buf
    ∧ ∀ i, (Z.to_nat bufsize <= i)%nat → buf' !! i = buf !! i.
Proof.
  intros Hsize Hbuf Hterm.
  rewrite setlocale_null_r_run by done.
  eexists _, _. split; [reflexivity |].
  unfold buffer_after.
  destruct (setlocale category) as [locale |] eqn:Hloc.
  - destruct (Hterm locale eq_refl) as [len Hlen]. rewrite Hlen.
    pose proof (strlen_lt_length locale len Hlen) as Hlt.
    destruct (strlen_spec locale len Hlen) as (Hpos & _ & _).
    destruct (Z.geb_spec len bufsize) as [Hbig | Hsmall].
    + destruct (Z.gtb_spec bufsize 0) as [Hnz | Hz]; [| done].
      split.
      * rewrite length_insert. apply overwritten_length; lia.
      * intros i Hi. rewrite list_lookup_insert_ne by lia.
        apply overwritten_high; lia.
    + split.
      * apply overwritten_length; lia.
      * intros i Hi. apply overwritten_high; lia.
  - destruct (Z.gtb_spec bufsize 0) as [Hnz | Hz]; [| done].
    split; [apply length_insert |].
    intros i Hi. apply list_lookup_insert_ne. lia.
Qed.

Lemma setlocale_null_r_stays_in_buffer_witness :
  ∃ code buf',
    setlocale_null_r (λ _, Some [67; 46; 85; 0]) 22 34 0 [9; 9; 9; 9; 9] 3
    = Some (code, buf')
    ∧ length buf' = length [9; 9; 9; 9; 9]
    ∧ ∀ i, (Z.to_nat 3 <= i)%nat → buf' !! i = [9; 9; 9; 9; 9] !! i.
Proof.
  apply (setlocale_null_r_stays_in_buffer (λ _, Some [67; 46; 85; 0]) 22 34 0
           [9; 9; 9; 9; 9] 3).
  - in_range.
  - cbn. lia.
  - intros locale [= <-]. by eexists.
Defined.

(** X13: with [bufsize > 0] the buffer holds a terminated string of
    fewer than [bufsize] bytes afterwards, whatever the return value. *)
Theorem setlocale_null_r_terminates_buffer setlocale EINVAL ERANGE category buf bufsize :
  is_size_t bufsize → bufsize <= Z.of_nat (length buf) →
  (∀ locale, setlocale category = Some locale → is_Some (strlen locale)) →
  0 < bufsize →
  ∃ code buf' len,
    setlocale_null_r setlocale EINVAL ERANGE category buf bufsize = Some (code, buf')
    ∧ strlen buf' = Some len
    ∧ 0 <= len < bufsize.
Proof.
  intros Hsize Hbuf Hterm Hnz.
  rewrite setlocale_null_r_run by done.
  unfold buffer_after.
  destruct (Z.gtb_spec bufsize 0) as [_ | ?]; [| lia].
  destruct (setlocale category) as [locale |] eqn:Hloc.
  - destruct (Hterm locale eq_refl) as [len Hlen]. rewrite Hlen.
    pose proof (strlen_lt_length locale len Hlen) as Hlt.
    destruct (strlen_spec locale len Hlen) as (Hpos & Hzero & Hbefore).
    destruct (Z.geb_spec len bufsize) as [Hbig | Hsmall].
    + eexists _, _, (Z.of_nat (Z.to_nat (bufsize - 1))).
      split; [reflexivity |]. split; [| lia].
      apply strlen_intro.
      * apply list_lookup_insert_eq. rewrite overwritten_length; lia.
      * intros j b Hj Hb. rewrite list_lookup_insert_ne in Hb by lia.
        rewrite overwritten_low in Hb by lia.
        apply (Hbefore j b); [lia | exact Hb].
    + eexists _, _, (Z.of_nat (Z.to_nat len)).
      split; [reflexivity |]. split; [| lia].
      apply strlen_intro.
      * rewrite overwritten_low by lia. exact Hzero.
      * intros j b Hj Hb. rewrite overwritten_low in Hb by lia.
        apply (Hbefore j b); [lia | exact Hb].
  - exists EINVAL, (<[0%nat := 0]> buf), 0.
    split; [reflexivity |]. split; [| lia].
    apply (strlen_intro _ 0%nat).
    + apply list_lookup_insert_eq. lia.
    + intros j b Hj. lia.
Qed.

Lemma setlocale_null_r_terminates_buffer_witness :
  ∃ code buf' len,
    setlocale_null_r (λ _, Some [67; 46; 85; 0]) 22 34 0 [9; 9; 9; 9; 9] 3
    = Some (code, buf')
    ∧ strlen buf' = Some len
    ∧ 0 <= len < 3.
Proof.
  apply (setlocale_null_r_terminates_buffer (λ _, Some [67; 46; 85; 0]) 22 34 0
           [9; 9; 9; 9; 9] 3).
  - in_range.
  - cbn. lia.
  - intros locale [= <-]. by eexists.
  - lia.
Defined.

(** X14: a locale name of [len < bufsize] bytes is copied whole:
    [setlocale_null_r] returns 0 and the buffer holds the same string. *)
Theorem setlocale_null_r_copies_name setlocale EINVAL ERANGE category buf bufsize locale len :
  is_size_t bufsize → bufsize <= Z.of_nat (length buf) →
  setlocale category = Some locale → strlen locale = Some len →
  len < bufsize →
  ∃ buf',
    setlocale_null_r setlocale EINVAL ERANGE category buf bufsize = Some (0, buf')
    ∧ strlen buf' = Some len
    ∧ take (Z.to_nat len) buf' = take (Z.to_nat len) locale.
Proof.
  intros Hsize Hbuf Hloc Hlen Hfits.
  rewrite setlocale_null_r_run; [| done | done |].
  2: { intros l Hl. rewrite Hloc in Hl. injection Hl as <-. by eexists. }
  unfold code_after, buffer_after. rewrite Hloc, Hlen.
  pose proof (strlen_lt_length locale len Hlen) as Hlt.
  destruct (strlen_spec locale len Hlen) as (Hpos & Hzero & Hbefore).
  destruct (Z.geb_spec len bufsize) as [? | _]; [lia |].
  eexists. split; [reflexivity |]. split.
  - rewrite <- (Z2Nat.id len Hpos) at 2. apply strlen_intro.
    + rewrite overwritten_low by lia. exact Hzero.
    + intros j b Hj Hb. rewrite overwritten_low in Hb by lia.
      apply (Hbefore j b); [lia | exact Hb].
  - unfold overwritten. rewrite take_app_le by (rewrite length_take; lia).
    rewrite take_take. f_equal. lia.
Qed.

Lemma setlocale_null_r_copies_name_witness :
  ∃ buf',
    setlocale_null_r (λ _, Some [67; 46; 85; 0]) 22 34 0 [9; 9; 9; 9; 9] 5
    = Some (0, buf')
    ∧ strlen buf' = Some 3
    ∧ take (Z.to_nat 3) buf' = take (Z.to_nat 3) [67; 46; 85; 0].
Proof.
  apply (setlocale_null_r_copies_name (λ _, Some [67; 46; 85; 0]) 22 34 0
           [9; 9; 9; 9; 9] 5 [67; 46; 85; 0] 3).
  - in_range.
  - cbn. lia.
  - reflexivity.
  - reflexivity.
  - lia.
Defined.

(** X15: a locale name of [len >= bufsize] bytes is cut: with
    [bufsize > 0], [setlocale_null_r] returns [ERANGE] and the buffer
    holds the first [bufsize - 1] bytes of the name as a terminated
    string. *)
Theorem setlocale_null_r_truncates_name setlocale EINVAL ERANGE category buf bufsize locale len :
  is_size_t bufsize → bufsize <= Z.of_nat (length buf) →
  setlocale category = Some locale → strlen locale = Some len →
  0 < bufsize <= len →
  ∃ buf',
    setlocale_null_r setlocale EINVAL ERANGE category buf bufsize = Some (ERANGE, buf')
    ∧ strlen buf' = Some (bufsize - 1)
    ∧ take (Z.to_nat (bufsize - 1)) buf' = take (Z.to_nat (bufsize - 1)) locale.
Proof.
  intros Hsize Hbuf Hloc Hlen Hcut.
  rewrite setlocale_null_r_run; [| done | done |].
  2: { intros l Hl. rewrite Hloc in Hl. injection Hl as <-. by eexists. }
  unfold code_after, buffer_after. rewrite Hloc, Hlen.
  pose proof (strlen_lt_length locale len Hlen) as Hlt.
  destruct (strlen_spec locale len Hlen) as (Hpos & Hzero & Hbefore).
  destruct (Z.geb_spec len bufsize) as [_ | ?]; [| lia].
  destruct (Z.gtb_spec bufsize 0) as [_ | ?]; [| lia].
  eexists. split; [reflexivity |]. split.
  - rewrite <- (Z2Nat.id (bufsize - 1)) at 3 by lia. apply strlen_intro.
    + apply list_lookup_insert_eq. rewrite overwritten_length; lia.
    + intros j b Hj Hb. rewrite list_lookup_insert_ne in Hb by lia.
      rewrite overwritten_low in Hb by lia.
      apply (Hbefore j b); [lia | exact Hb].
  - rewrite take_insert_ge by lia.
    unfold overwritten. rewrite take_app_le by (rewrite length_take; lia).
    rewrite take_take. f_equal. lia.
Qed.

Lemma setlocale_null_r_truncates_name_witness :
  ∃ buf',
    setlocale_null_r (λ _, Some [67; 46; 85; 0]) 22 34 0 [9; 9; 9; 9; 9] 2
    = Some (34, buf')
    ∧ strlen buf' = Some (2 - 1)
    ∧ take (Z.to_nat (2 - 1)) buf' = take (Z.to_nat (2 - 1)) [67; 46; 85; 0].
Proof.
  apply (setlocale_null_r_truncates_name (λ _, Some [67; 46; 85; 0]) 22 34 0
           [9; 9; 9; 9; 9] 2 [67; 46; 85; 0] 3).
  - in_range.
  - cbn. lia.
  - reflexivity.
  - reflexivity.
  - lia.
Defined.

(** ** More on the guards *)

Lemma xmemdup_run libc p s w :
  xmemdup libc p s w =
    match xmalloc libc s w with
    | Returned r w' => Returned r (log (EvMemcpy r p s) w')
    | Aborted w' => Aborted w'
    | Fault => Fault
    end.
Proof.
  unfold xmemdup, mbind, M_bind. by destruct (xmalloc libc s w).
Qed.

(** X16: [xmemdup] of [s ≠ 0] bytes either aborts on exhaustion before
    any copy, or copies the [s] bytes into the non-null block it
    returns; asked for 0 bytes it passes whatever [malloc(0)] answered,
    [NULL] included, to [memcpy] and returns it. *)
Theorem xmemdup_copies_into_its_block libc p s w :
  (s ≠ 0 → libc (trace w) (Malloc s) = NULL →
     xmemdup libc p s w
     = Aborted (mkWorld (trace w ++ [EvAlloc (Malloc s) NULL; EvStderr diagnostic])
                  (objects w) (errno w)))
  ∧ (s ≠ 0 → libc (trace w) (Malloc s) ≠ NULL →
     xmemdup libc p s w
     = Returned (libc (trace w) (Malloc s))
         (mkWorld (trace w ++ [EvAlloc (Malloc s) (libc (trace w) (Malloc s));
                               EvMemcpy (libc (trace w) (Malloc s)) p s])
            (objects w) (errno w)))
  ∧ xmemdup libc p 0 w
    = Returned (libc (trace w) (Malloc 0))
        (mkWorld (trace w ++ [EvAlloc (Malloc 0) (libc (trace w) (Malloc 0));
                              EvMemcpy (libc (trace w) (Malloc 0)) p 0])
           (objects w) (errno w)).
Proof.
  rewrite !xmemdup_run.
  split; [| split].
  - intros Hs Hnull. rewrite xmalloc_run, Hnull.
    apply Z.eqb_neq in Hs. rewrite Hs. cbn.
    unfold died, answered, log. cbn. rewrite Hnull, <- List.app_assoc. reflexivity.
  - intros Hs Hblock. rewrite xmalloc_run.
    apply Z.eqb_neq in Hblock. rewrite Hblock. cbn.
    unfold answered, log. cbn. rewrite <- List.app_assoc. reflexivity.
  - rewrite xmalloc_run. cbn. rewrite andb_false_r. cbn.
    unfold answered, log. cbn. rewrite <- List.app_assoc. reflexivity.
Qed.

Lemma xmemdup_copies_into_its_block_witness :
  xmemdup plentiful 7 24 (start 0)
  = Returned 4096
      (mkWorld [EvAlloc (Malloc 24) 4096; EvMemcpy 4096 7 24] {[ 100 := 0 ]} 0)
  ∧ xmemdup exhausted 7 24 (start 0)
    = Aborted (mkWorld [EvAlloc (Malloc 24) NULL; EvStderr diagnostic] {[ 100 := 0 ]} 0).
Proof.
  split.
  - apply (xmemdup_copies_into_its_block plentiful 7 24 (start 0)); [lia | discriminate].
  - apply (xmemdup_copies_into_its_block exhausted 7 24 (start 0)); [lia | reflexivity].
Defined.

(** One doubling step with an allocator that has a block. *)
Lemma x2nrealloc_step libc p pn s n w :
  (∀ t c, libc t c ≠ NULL) →
  objects w !! pn = Some n → is_size_t n → 2 * n <= SIZE_MAX →
  ∃ r w', x2nrealloc libc p pn s w = Returned r w'
          ∧ objects w' !! pn = Some (doubled n)
          ∧ length (allocations (trace w')) = S (length (allocations (trace w))).
Proof.
  intros Hlibc Hn Hn' Hfit. unfold x2nrealloc.
  rewrite (xpalloc_run _ _ _ _ _ _ _ _ Hn), xrealloc_run.
  rewrite next_count_doubled by done.
  set (c := Realloc p (size_mul (doubled n) s)).
  destruct (Z.eqb_spec (libc (trace (stored pn (doubled n) w)) c) NULL) as [Hnull | _].
  { by apply Hlibc in Hnull. }
  cbn [andb]. eexists _, _. split; [reflexivity |]. split.
  - cbn. apply lookup_insert_eq.
  - unfold allocations. cbn. rewrite List.filter_app, length_app. cbn. lia.
Qed.

(** X17: with an allocator that always has a block, [k] calls of
    [x2nrealloc] in a row on a capacity [n >= 1] return, leave the
    capacity [n * 2^k] and make exactly [k] allocator calls, as long as
    [n * 2^k] fits [size_t]. *)
Theorem x2nrealloc_times_doubles libc s pn : ∀ (k : nat) p n w,
  (∀ t c, libc t c ≠ NULL) →
  objects w !! pn = Some n → 1 <= n → n * 2 ^ Z.of_nat k <= SIZE_MAX →
  ∃ r w', x2nrealloc_times libc k p pn s w = Returned r w'
          ∧ objects w' !! pn = Some (n * 2 ^ Z.of_nat k)
          ∧ length (allocations (trace w')) = (length (allocations (trace w)) + k)%nat.
Proof.
  induction k as [| k IH]; intros p n w Hlibc Hn Hpos Hfit.
  - exists p, w. split; [reflexivity |]. split; [| lia].
    rewrite Hn. f_equal. cbn. lia.
  - assert (Hpow : 2 ^ Z.of_nat (S k) = 2 * 2 ^ Z.of_nat k).
    { rewrite Nat2Z.inj_succ, Z.pow_succ_r by lia. reflexivity. }
    assert (Hone : 0 < 2 ^ Z.of_nat k) by (apply Z.pow_pos_nonneg; lia).
    rewrite Hpow in Hfit |- *.
    destruct (x2nrealloc_step libc p pn s n w Hlibc Hn) as (r1 & w1 & Hrun1 & Ho1 & Ha1).
    { unfold is_size_t. nia. }
    { nia. }
    assert (Hdoubled : doubled n = 2 * n).
    { unfold doubled. destruct (Z.eqb_spec n 0); lia. }
    rewrite Hdoubled in Ho1.
    destruct (IH r1 (2 * n) w1 Hlibc Ho1) as (r & w' & Hrun & Ho & Ha); [lia | nia |].
    exists r, w'. split; [| split].
    + cbn [x2nrealloc_times]. unfold mbind, M_bind. rewrite Hrun1. exact Hrun.
    + rewrite Ho. f_equal. lia.
    + rewrite Ha, Ha1. lia.
Qed.

Lemma x2nrealloc_times_doubles_witness :
  ∃ r w', x2nrealloc_times plentiful 5 7 100 8 (start 3) = Returned r w'
          ∧ objects w' !! 100 = Some (3 * 2 ^ Z.of_nat 5)
          ∧ length (allocations (trace w'))
            = (length (allocations (trace (start 3))) + 5)%nat.
Proof.
  apply (x2nrealloc_times_doubles plentiful 8 100 5%nat 7 3 (start 3)).
  - intros t c. discriminate.
  - reflexivity.
  - lia.
  - in_range.
Defined.



(** X19: growth from an empty array with [n_incr_min = 0] stalls: the
    stored count stays 0 and [xpalloc] returns what [realloc(pa, 0)]
    answered, for every bound and element size. *)
Theorem xpalloc_stalls_at_zero libc pa pn n_max s w :
  objects w !! pn = Some 0 →
  is_ptrdiff_t n_max →
  xpalloc libc pa pn 0 n_max s w
  = Returned (libc (trace w) (Realloc pa 0)) (answered libc (Realloc pa 0) w).
Proof.
  intros Hn Hk.
  assert (Hnext : next_count 0 0 n_max = 0).
  { rewrite next_count_fits by (done || in_range).
    destruct (Z.geb_spec n_max 0); cbn [andb]; [| reflexivity].
    destruct (Z.gtb_spec (0 + Z.max 0 0) n_max); lia. }
  rewrite (xpalloc_run _ _ _ _ _ _ _ _ Hn), Hnext.
  rewrite stored_same by done.
  change (size_mul 0 s) with 0.
  rewrite xrealloc_run. cbn. by rewrite andb_false_r.
Qed.

Lemma xpalloc_stalls_at_zero_witness :
  xpalloc exhausted 7 100 0 (-1) 8 (start 0)
  = Returned NULL (answered exhausted (Realloc 7 0) (start 0)).
Proof.
  apply (xpalloc_stalls_at_zero exhausted 7 100 (-1) 8 (start 0)); [reflexivity | in_range].
Defined.

(** X20: on [size_t] arguments whose product fits, [reallocarray] and
    [xreallocarray] do the same whenever the allocator has a block or the
    product is 0: the two overflow tests, one dividing by the count and
    one by the size, agree. *)
Theorem reallocarray_agrees_with_xreallocarray libc ENOMEM p n s w :
  is_size_t n → is_size_t s →
  reallocarray_overflowed n s = xreallocarray_overflowed n s
  ∧ (n * s <= SIZE_MAX →
     libc (trace w) (Realloc p (n * s)) ≠ NULL ∨ n * s = 0 →
     reallocarray libc ENOMEM p n s w = xreallocarray libc p n s w).
Proof.
  intros Hn Hs. split.
  - by rewrite reallocarray_overflowed_spec, xreallocarray_overflowed_spec.
  - intros Hfit Hblock.
    rewrite reallocarray_run, xreallocarray_run.
    rewrite reallocarray_overflowed_spec, xreallocarray_overflowed_spec by done.
    destruct (Z.gtb_spec (n * s) SIZE_MAX); [lia |].
    rewrite (size_mul_fits n s Hn Hs Hfit), xrealloc_run.
    unfold realloc, call, answered.
    destruct Hblock as [Hblock | Hzero].
    + apply Z.eqb_neq in Hblock. by rewrite Hblock.
    + rewrite Hzero. cbn. by rewrite andb_false_r.
Qed.

Lemma reallocarray_agrees_with_xreallocarray_witness :
  reallocarray plentiful 12 7 3 8 (start 0) = xreallocarray plentiful 7 3 8 (start 0).
Proof.
  apply (reallocarray_agrees_with_xreallocarray plentiful 12 7 3 8 (start 0));
    [in_range | in_range | in_range | left; discriminate].
Defined.

(** X21: [xpalloc] writes one object only: every [size_t] object other
    than [*pn] holds the same value afterwards. *)
Theorem xpalloc_writes_only_pn libc pa pn n_incr_min n_max s n w q :
  objects w !! pn = Some n → q ≠ pn →
  ∃ w', final (xpalloc libc pa pn n_incr_min n_max s w) = Some w'
        ∧ objects w' !! q = objects w !! q.
Proof.
  intros Hn Hq. rewrite (xpalloc_run _ _ _ _ _ _ _ _ Hn).
  destruct (xrealloc_final libc pa (size_mul (next_count n n_incr_min n_max) s)
              (stored pn (next_count n n_incr_min n_max) w)) as (w' & Hf & Ho & _).
  exists w'. split; [exact Hf |]. rewrite Ho. cbn.
  by apply lookup_insert_ne.
Qed.

Lemma xpalloc_writes_only_pn_witness :
  ∃ w', final (xpalloc plentiful 7 100 1 (-1) 8
                 (mkWorld [] (<[ 200 := 5 ]> {[ 100 := 4 ]}) 0)) = Some w'
        ∧ objects w' !! 200 = Some 5.
Proof.
  destruct (xpalloc_writes_only_pn plentiful 7 100 1 (-1) 8 4
              (mkWorld [] (<[ 200 := 5 ]> {[ 100 := 4 ]}) 0) 200)
    as (w' & Hf & Ho); [reflexivity | lia |].
  exists w'. split; [exact Hf | exact Ho].
Defined.
